(** * preact-headmaster: the head reconciler and the server serializer

    A shallow embedding of [src/index.ts].  The hook's effect body
    ([useHeadmaster]), its cleanup closure, the element helper
    ([createOrUpdateElement]) and [renderServerHeadmaster] are written as
    programs of a small state-and-journal monad over a model of the
    document; theorems about them follow the definitions. *)

From Stdlib Require Import Ascii.
From Stdlib Require String.
From stdpp Require Import base option list strings pretty gmap fin_maps.

Local Open Scope stdpp_scope.

(** ** JavaScript values *)

Module Js.

(** The values an attribute set may hold according to the declared tag
    interfaces: [string | boolean | undefined]. *)
Inductive AttrValue : Type :=
  | AUndefined
  | ABool (b : bool)
  | AString (s : string).

(** A plain object as the list [Object.entries] yields for it. *)
Definition Attributes : Type := list (string * AttrValue).

(** The values a top-level property of [HeadmasterProps] can hold.  Objects
    and arrays carry the identity [ref] of the JavaScript object beside
    their current contents: [!==] looks at the identity only. *)
Inductive Value : Type :=
  | VUndefined
  | VNull
  | VString (s : string)
  | VObject (ref : nat) (entries : Attributes)
  | VArray (ref : nat) (items : list Attributes).

Definition dquote : string := String "034"%char EmptyString.

(** [String(value)], also the conversion of a template literal. *)
Definition toString (value : AttrValue) : string :=
  match value with
  | AUndefined => "undefined"
  | ABool true => "true"
  | ABool false => "false"
  | AString s => s
  end.

Definition Value_toString (v : Value) : string :=
  match v with
  | VUndefined => "undefined"
  | VNull => "null"
  | VString s => s
  | VObject _ _ => "[object Object]"
  | VArray _ items => String.concat "," (map (λ _, "[object Object]") items)
  end.

(** Truthiness, as tested by [if (x)] and [x || y]. *)
Definition truthy (v : Value) : bool :=
  match v with
  | VUndefined | VNull => false
  | VString s => negb (String.eqb s EmptyString)
  | VObject _ _ | VArray _ _ => true
  end.

(** [a === b] and [a !== b]. *)
Definition strict_eq (a b : Value) : bool :=
  match a, b with
  | VUndefined, VUndefined => true
  | VNull, VNull => true
  | VString s, VString t => String.eqb s t
  | VObject r _, VObject r' _ => Nat.eqb r r'
  | VArray r _, VArray r' _ => Nat.eqb r r'
  | _, _ => false
  end.

Definition strict_neq (a b : Value) : bool := negb (strict_eq a b).

(** Property read [o[key]]: a missing property reads as [undefined]. *)
Definition get (o : gmap string Value) (key : string) : Value :=
  default VUndefined (o !! key).

(** Object spread [{ ...a, ...b }]: the own properties of [b] win. *)
Definition spread (a b : gmap string Value) : gmap string Value := b ∪ a.

(** The characters of a string of ASCII characters, one string each. *)
Definition chars (s : string) : list string :=
  map (λ c, String c EmptyString) (String.list_ascii_of_string s).

(** [Object.entries(v || {})].  The declared type of the two property maps
    is [Record<string, string>]; for the other values the entries are the
    ones JavaScript gives: none for a falsy value, the indexed characters of
    a string (of ASCII characters: JavaScript indexes UTF-16 code units,
    which a string beyond ASCII does not show here), the indexed items of an
    array (an item is an object, and only its string conversion is ever
    read). *)
Definition entries_or_empty (v : Value) : Attributes :=
  match v with
  | VUndefined | VNull => []
  | VString s => imap (λ i c, (pretty i, AString c)) (chars s)
  | VObject _ entries => entries
  | VArray _ items => imap (λ i _, (pretty i, AString "[object Object]")) items
  end.

End Js.
Export Js.

(** ** The document *)

Module Dom.

(** ASCII lowercase: what [setAttribute], [getAttribute] and
    [removeAttribute] do to a name on an element of an HTML document. *)
Definition ascii_lowercase (c : ascii) : ascii :=
  let n := nat_of_ascii c in
  if (65 <=? n) && (n <=? 90) then ascii_of_nat (n + 32) else c.

Fixpoint lowercase (s : string) : string :=
  match s with
  | EmptyString => EmptyString
  | String c s' => String (ascii_lowercase c) (lowercase s')
  end.

(** ASCII whitespace: tab, line feed, form feed, carriage return, space. *)
Definition is_ascii_whitespace (c : ascii) : bool :=
  let n := nat_of_ascii c in
  (n =? 9) || (n =? 10) || (n =? 12) || (n =? 13) || (n =? 32).

(** Strip and collapse ASCII whitespace: every run of whitespace becomes
    one space, and the whitespace at both ends goes.  [started] says that a
    character has been kept already, [pending] that whitespace was met
    since. *)
Fixpoint strip_and_collapse_from (started pending : bool) (s : string) : string :=
  match s with
  | EmptyString => EmptyString
  | String c s' =>
      if is_ascii_whitespace c then strip_and_collapse_from started true s'
      else
        let rest := String c (strip_and_collapse_from true false s') in
        if started && pending then String (ascii_of_nat 32) rest else rest
  end.

Definition strip_and_collapse (s : string) : string :=
  strip_and_collapse_from false false s.

(** An element of the document.  [tagName] is the name the element was
    created with, the one a type selector matches.  The attribute names of
    an element of the head are kept as given, which is what the DOM does
    with a name that has no upper-case ASCII letter, and every name is taken
    to be one that [setAttribute] accepts.  [innerHTML] is the markup last
    assigned to the property of that name, not what reading the property
    gives. *)
Record Element : Type := mkElement {
  tagName : string;
  attributes : gmap string string;
  innerHTML : string }.

(** The part of the document the hook touches.  [doc_title] is the text of
    the title element, as last assigned to [document.title]; reading the
    property normalises it, see [document_title].  [doc_documentElement]
    and [doc_body] hold the attributes of the root and of the body element
    under their names as the DOM keeps them, in ASCII lowercase.
    [doc_nodes] is the store of elements, an
    element's position being its identity, and [doc_head] lists the element
    children of [document.head] in document order (the title element, which
    [doc_title] stands for, apart); the head has no deeper descendants.  An
    element has the head as [parentNode] when it is listed there, and none
    otherwise. *)
Record Document : Type := mkDocument {
  doc_title : string;
  doc_documentElement : gmap string string;
  doc_body : gmap string string;
  doc_nodes : list Element;
  doc_head : list nat }.

(** The mutations of the document, as journalled by the primitives. *)
Inductive DomOp : Type :=
  | OpSetTitle (s : string)
  | OpSetRootAttribute (key value : string)
  | OpSetBodyAttribute (key value : string)
  | OpCreateElement (tag : string) (node : nat)
  | OpSetAttribute (node : nat) (key value : string)
  | OpRemoveAttribute (node : nat) (key : string)
  | OpSetInnerHTML (node : nat) (html : string)
  | OpAppendChild (node : nat)
  | OpRemoveChild (node : nat).

End Dom.
Export Dom.

(** ** Module state and the monad of the embedding *)

(** [serverHeadmasterData] is the module-level aggregate; [document] is the
    global of the same name. *)
Record World : Type := mkWorld {
  serverHeadmasterData : gmap string Value;
  document : Document }.

(** A computation reads and writes the world and journals the document
    mutations it performs. *)
Definition M (A : Type) : Type := World → A * World * list DomOp.

#[export] Instance M_ret : MRet M := λ A (a : A) w, (a, w, []).

#[export] Instance M_bind : MBind M := λ A B (f : A → M B) (m : M A) w,
  let '(a, w1, ops1) := m w in
  let '(b, w2, ops2) := f a w1 in
  (b, w2, ops1 ++ ops2).

Definition result {A} (r : A * World * list DomOp) : A := r.1.1.
Definition world {A} (r : A * World * list DomOp) : World := r.1.2.
Definition journal {A} (r : A * World * list DomOp) : list DomOp := r.2.

(** [l.forEach(f)]. *)
Fixpoint forEach {A} (l : list A) (f : A → M unit) : M unit :=
  match l with
  | [] => mret ()
  | x :: l' => f x;; forEach l' f
  end.

(** [l.forEach] whose callback updates a local variable [acc]. *)
Fixpoint forEach_with {A B} (l : list A) (f : B → A → M B) (acc : B) : M B :=
  match l with
  | [] => mret acc
  | x :: l' => acc' ← f acc x; forEach_with l' f acc'
  end.

(** *** Primitives *)

Definition update_document (f : Document → Document) (op : DomOp) : M unit :=
  λ w, ((), mkWorld (serverHeadmasterData w) (f (document w)), [op]).

Definition read_document {A} (f : Document → A) : M A :=
  λ w, (f (document w), w, []).

Definition alter_node (f : Element → Element) (node : nat) (d : Document)
  : Document :=
  mkDocument (doc_title d) (doc_documentElement d) (doc_body d)
    (alter f node (doc_nodes d)) (doc_head d).

Definition with_head (f : list nat → list nat) (d : Document) : Document :=
  mkDocument (doc_title d) (doc_documentElement d) (doc_body d)
    (doc_nodes d) (f (doc_head d)).

(** [document.title = s]: the text of the title element becomes [s]. *)
Definition set_title (s : string) : M unit :=
  update_document
    (λ d, mkDocument s (doc_documentElement d) (doc_body d)
            (doc_nodes d) (doc_head d))
    (OpSetTitle s).

(** Reading [document.title]: the text of the title element with its ASCII
    whitespace stripped and collapsed. *)
Definition document_title (d : Document) : string :=
  strip_and_collapse (doc_title d).

(** [document.documentElement.setAttribute(key, value)]: the attribute is
    kept under the name in ASCII lowercase. *)
Definition documentElement_setAttribute (key value : string) : M unit :=
  update_document
    (λ d, mkDocument (doc_title d)
            (<[lowercase key := value]> (doc_documentElement d))
            (doc_body d) (doc_nodes d) (doc_head d))
    (OpSetRootAttribute key value).

(** [document.body.setAttribute(key, value)], likewise. *)
Definition body_setAttribute (key value : string) : M unit :=
  update_document
    (λ d, mkDocument (doc_title d) (doc_documentElement d)
            (<[lowercase key := value]> (doc_body d)) (doc_nodes d) (doc_head d))
    (OpSetBodyAttribute key value).

(** [getAttribute(name)] on the root or the body element, whose attributes
    are [a]: the name is looked up in ASCII lowercase. *)
Definition getAttribute (a : gmap string string) (name : string) : option string :=
  a !! lowercase name.

Definition marker : string := "data-headmaster".

(** Does the element at [node] match the selector [tag[data-headmaster]]? *)
Definition matches_marker (d : Document) (tag : string) (node : nat) : bool :=
  match doc_nodes d !! node with
  | Some e => String.eqb (tagName e) tag && bool_decide (is_Some (attributes e !! marker))
  | None => false
  end.

(** [document.head.querySelector(`${tag}[data-headmaster]`)]: the first
    match in document order. *)
Definition head_querySelector (tag : string) : M (option nat) :=
  read_document (λ d, snd <$> list_find (λ node, matches_marker d tag node) (doc_head d)).

(** [document.createElement(tag)]: a new element outside the tree. *)
Definition createElement (tag : string) : M nat :=
  λ w,
    let d := document w in
    let node := length (doc_nodes d) in
    (node,
     mkWorld (serverHeadmasterData w)
       (mkDocument (doc_title d) (doc_documentElement d) (doc_body d)
          (doc_nodes d ++ [mkElement tag ∅ EmptyString]) (doc_head d)),
     [OpCreateElement tag node]).

Definition setAttribute (node : nat) (key value : string) : M unit :=
  update_document
    (alter_node
       (λ e, mkElement (tagName e) (<[key := value]> (attributes e)) (innerHTML e))
       node)
    (OpSetAttribute node key value).

Definition removeAttribute (node : nat) (key : string) : M unit :=
  update_document
    (alter_node
       (λ e, mkElement (tagName e) (delete key (attributes e)) (innerHTML e))
       node)
    (OpRemoveAttribute node key).

Definition set_innerHTML (node : nat) (html : string) : M unit :=
  update_document
    (alter_node (λ e, mkElement (tagName e) (attributes e) html) node)
    (OpSetInnerHTML node html).

(** [document.head.appendChild(node)]: the node leaves its place, if it had
    one, and becomes the last child. *)
Definition head_appendChild (node : nat) : M unit :=
  update_document
    (with_head (λ h, filter (λ n, n ≠ node) h ++ [node]))
    (OpAppendChild node).

(** [element.parentNode], as a truth value. *)
Definition parentNode (node : nat) : M bool :=
  read_document (λ d, bool_decide (node ∈ doc_head d)).

(** [element.parentNode.removeChild(element)]. *)
Definition parentNode_removeChild (node : nat) : M unit :=
  update_document
    (with_head (λ h, filter (λ n, n ≠ node) h))
    (OpRemoveChild node).

(** Assignment to the module variable [serverHeadmasterData]. *)
Definition assign_serverHeadmasterData
    (f : gmap string Value → gmap string Value) : M unit :=
  λ w, ((), mkWorld (f (serverHeadmasterData w)) (document w), []).

(** ** The source *)

Definition VALID_TAG_NAMES : list string :=
  ["base"; "meta"; "link"; "style"; "script"; "noscript"].

(** [createOrUpdateElement] (index.ts, lines 30-47). *)
Definition createOrUpdateElement (tagName : string) (attributes : Attributes)
    (innerHTML : option string) : M nat :=
  found ← head_querySelector tagName;
  element ← match found with
            | Some e => mret e
            | None => createElement tagName
            end;
  setAttribute element marker EmptyString;;
  forEach attributes (λ '(key, value),
    match value with
    | AUndefined => removeAttribute element key
    | _ => setAttribute element key (toString value)
    end);;
  match innerHTML with
  | Some html => set_innerHTML element html
  | None => mret ()
  end;;
  mret element.

(** The three statements run for one attribute set of a tag kind
    (lines 85-87 and 90-92): locate or create, append, record. *)
Definition place (tagName : string) (elements : list nat)
    (attributes : Attributes) : M (list nat) :=
  element ← createOrUpdateElement tagName attributes None;
  head_appendChild element;;
  mret (elements ++ [element]).

(** The callback of [VALID_TAG_NAMES.forEach] (lines 78-95). *)
Definition apply_tag (headmasterData prevHeadmasterData : gmap string Value)
    (elements : list nat) (tagName : string) : M (list nat) :=
  let currentAttributes := get headmasterData tagName in
  let prevAttributes := get prevHeadmasterData tagName in
  if strict_neq currentAttributes prevAttributes then
    match currentAttributes with
    | VArray _ items => forEach_with items (place tagName) elements
    | VObject _ attributes => place tagName elements attributes
    | _ => mret elements
    end
  else mret elements.

(** [headmasterData.title || ''], as the title setter stores it. *)
Definition title_or_empty (v : Value) : string :=
  if truthy v then Value_toString v else EmptyString.

(** What the effect hands back to the host: nothing ([return;]) or the
    cleanup closure, which is determined by the [elements] it captured. *)
Inductive Cleanup : Type :=
  | NoCleanup
  | CleanupOf (elements : list nat).

(** The three guarded statements at the head of the browser branch
    (lines 62-64, 66-70, 72-76). *)
Definition apply_title (headmasterData prevHeadmasterData : gmap string Value)
  : M unit :=
  if strict_neq (get headmasterData "title") (get prevHeadmasterData "title")
  then set_title (title_or_empty (get headmasterData "title"))
  else mret ().

Definition apply_htmlAttributes
    (headmasterData prevHeadmasterData : gmap string Value) : M unit :=
  if strict_neq (get headmasterData "htmlAttributes")
       (get prevHeadmasterData "htmlAttributes")
  then forEach (entries_or_empty (get headmasterData "htmlAttributes"))
         (λ '(key, value), documentElement_setAttribute key (toString value))
  else mret ().

Definition apply_bodyAttributes
    (headmasterData prevHeadmasterData : gmap string Value) : M unit :=
  if strict_neq (get headmasterData "bodyAttributes")
       (get prevHeadmasterData "bodyAttributes")
  then forEach (entries_or_empty (get headmasterData "bodyAttributes"))
         (λ '(key, value), body_setAttribute key (toString value))
  else mret ().

(** The effect callback of [useHeadmaster] (lines 53-106).
    [prevHeadmasterDataRef] is the current content of the ref of that name;
    the first component of the result is its content afterwards. *)
Definition useHeadmaster_effect (isServer : bool)
    (prevHeadmasterDataRef headmasterData : gmap string Value)
  : M (gmap string Value * Cleanup) :=
  if isServer then
    assign_serverHeadmasterData (λ data, spread data headmasterData);;
    mret (prevHeadmasterDataRef, NoCleanup)
  else
    let prevHeadmasterData := prevHeadmasterDataRef in
    apply_title headmasterData prevHeadmasterData;;
    apply_htmlAttributes headmasterData prevHeadmasterData;;
    apply_bodyAttributes headmasterData prevHeadmasterData;;
    elements ← forEach_with VALID_TAG_NAMES
                 (apply_tag headmasterData prevHeadmasterData) [];
    mret (headmasterData, CleanupOf elements).

(** The cleanup closure returned by the effect (lines 99-105). *)
Definition cleanup (elements : list nat) : M unit :=
  forEach elements (λ element,
    attached ← parentNode element;
    if (attached : bool) then parentNode_removeChild element else mret ()).

Definition run_cleanup (c : Cleanup) : M unit :=
  match c with
  | NoCleanup => mret ()
  | CleanupOf elements => cleanup elements
  end.

(** The spec's [apply(previous, next)]: the effect in a browser. *)
Definition apply (previous next : gmap string Value)
  : M (gmap string Value * Cleanup) :=
  useHeadmaster_effect false previous next.

(** The spec's [merge(next)]: the effect on the server, whatever the ref
    holds. *)
Definition merge (prevHeadmasterDataRef next : gmap string Value)
  : M (gmap string Value * Cleanup) :=
  useHeadmaster_effect true prevHeadmasterDataRef next.

(** *** The serializer *)

Inductive Outcome (A : Type) : Type :=
  | Returned (a : A)
  | Thrown (message : string).
Arguments Returned {A} a.
Arguments Thrown {A} message.

(** [`${key}="${value}"`]. *)
Definition pair_markup (entry : string * AttrValue) : string :=
  entry.1 +:+ "=" +:+ dquote +:+ toString entry.2 +:+ dquote.

(** [`<${tagName} ${Object.entries(attrs).map(...).join(' ')} />`]. *)
Definition element_markup (tagName : string) (attrs : Attributes) : string :=
  "<" +:+ tagName +:+ " " +:+ String.concat " " (map pair_markup attrs) +:+ " />".

(** The callback of the serializer's loop over [VALID_TAG_NAMES]
    (lines 129-142), [headmasterString] being its accumulator. *)
Definition render_tag (data : gmap string Value) (headmasterString : string)
    (tagName : string) : string :=
  match get data tagName with
  | VArray _ items =>
      fold_left (λ acc attrs, acc +:+ element_markup tagName attrs)
        items headmasterString
  | VObject _ attributes => headmasterString +:+ element_markup tagName attributes
  | _ => headmasterString
  end.

(** [renderServerHeadmaster] (lines 118-145). *)
Definition renderServerHeadmaster (isServer : bool) : M (Outcome string) :=
  if negb isServer then
    mret (Thrown "renderServerHeadmaster should only be called on the server side")
  else
    λ w,
      let data := serverHeadmasterData w in
      let headmasterString := EmptyString in
      let headmasterString :=
        if truthy (get data "title")
        then headmasterString +:+
             ("<title>" +:+ Value_toString (get data "title") +:+ "</title>")
        else headmasterString in
      let headmasterString :=
        fold_left (render_tag data) VALID_TAG_NAMES headmasterString in
      (Returned headmasterString, w, []).

(** ** Notions used by the statements *)

(** [keeps π m]: running [m] does not change the component [π] of the
    world. *)
Definition keeps {X A : Type} (π : World → X) (m : M A) : Prop :=
  ∀ w, π (world (m w)) = π w.

(** The components of the world outside the head's elements. *)
Record Surroundings : Type := mkSurroundings {
  sur_data : gmap string Value;
  sur_title : string;
  sur_documentElement : gmap string string;
  sur_body : gmap string string }.

Definition surroundings (w : World) : Surroundings :=
  mkSurroundings (serverHeadmasterData w) (doc_title (document w))
    (doc_documentElement (document w)) (doc_body (document w)).

(** The serializer's output in the words of the spec (section 4.3): the
    title block if the title is non-empty, then, for the tag kinds in their
    fixed order, one element per entry of a sequence, in sequence order, or
    the one element of a single attribute set. *)
Definition spec_title (title : Value) : string :=
  match title with
  | VUndefined | VNull | VString EmptyString => EmptyString
  | _ => "<title>" +:+ Value_toString title +:+ "</title>"
  end.

Definition spec_kind (data : gmap string Value) (tagName : string) : string :=
  match get data tagName with
  | VArray _ items => String.concat EmptyString (map (element_markup tagName) items)
  | VObject _ attributes => element_markup tagName attributes
  | _ => EmptyString
  end.

Definition spec_render (data : gmap string Value) : string :=
  spec_title (get data "title") +:+
  String.concat EmptyString
    (map (spec_kind data) ["base"; "meta"; "link"; "style"; "script"; "noscript"]).


(** The number of [appendChild] calls in a journal. *)
Definition is_append (op : DomOp) : bool :=
  match op with OpAppendChild _ => true | _ => false end.

Definition appends (ops : list DomOp) : nat :=
  length (List.filter is_append ops).

(** [journals P m]: every mutation [m] performs satisfies [P]. *)
Definition journals {A : Type} (P : DomOp → Prop) (m : M A) : Prop :=
  ∀ w, Forall P (journal (m w)).

(** An element after one entry of an attribute set has been applied to it:
    the attribute removed for an undefined value, set otherwise. *)
Definition sync_attribute (e : Element) (entry : string * AttrValue) : Element :=
  match entry.2 with
  | AUndefined => mkElement (tagName e) (delete entry.1 (attributes e)) (innerHTML e)
  | value =>
      mkElement (tagName e) (<[entry.1 := toString value]> (attributes e))
        (innerHTML e)
  end.

(** An element after [createOrUpdateElement] has gone over it: marked, then
    each entry of the attribute set applied in order, then the markup set if
    one was given. *)
Definition refresh (attrs : Attributes) (html : option string) (e : Element)
  : Element :=
  let e1 := mkElement (tagName e) (<[marker := EmptyString]> (attributes e))
              (innerHTML e) in
  let e2 := fold_left sync_attribute attrs e1 in
  match html with
  | Some h => mkElement (tagName e2) (attributes e2) h
  | None => e2
  end.

(** The attributes of the root or of the body element after
    [setAttribute(key, String(value))]. *)
Definition put_attribute (a : gmap string string) (entry : string * AttrValue)
  : gmap string string :=
  <[lowercase entry.1 := toString entry.2]> a.

(** The elements a journal appends to the head, in order. *)
Definition appended (ops : list DomOp) : list nat :=
  omap (λ op, match op with OpAppendChild node => Some node | _ => None end) ops.

(** The elements a [Cleanup] value has captured. *)
Definition recorded (c : Cleanup) : list nat :=
  match c with
  | NoCleanup => []
  | CleanupOf elements => elements
  end.

(** [nodes_blind π]: the component [π] of the world does not look at the
    store of elements. *)
Definition nodes_blind {X : Type} (π : World → X) : Prop :=
  ∀ w nodes,
    π (mkWorld (serverHeadmasterData w)
         (mkDocument (doc_title (document w)) (doc_documentElement (document w))
            (doc_body (document w)) nodes (doc_head (document w)))) = π w.

(** The world with its document changed by [f]. *)
Definition on_document (f : Document → Document) (w : World) : World :=
  mkWorld (serverHeadmasterData w) (f (document w)).

(** The document with a new element of tag [tag], outside the tree. *)
Definition add_node (tag : string) (d : Document) : Document :=
  mkDocument (doc_title d) (doc_documentElement d) (doc_body d)
    (doc_nodes d ++ [mkElement tag ∅ EmptyString]) (doc_head d).

(** [node] is the one child of the head that the selector of [tag]
    matches. *)
Definition sole_match (d : Document) (tag : string) (node : nat) : Prop :=
  node ∈ doc_head d ∧ matches_marker d tag node ∧
  ∀ other, other ∈ doc_head d → other ≠ node → ¬ matches_marker d tag other.

(** A server pass: the effects of several hook instances run one after the
    other, each with its own Descriptor. *)
Definition merge_all (prev : gmap string Value) (Ds : list (gmap string Value))
  : M unit :=
  forEach Ds (λ D, merge prev D;; mret ()).

(** A value without the identity of its object. *)
Definition forget_identity (v : Value) : Value :=
  match v with
  | VObject _ entries => VObject 0 entries
  | VArray _ items => VArray 0 items
  | _ => v
  end.

(** The children of a parent after [appendChild(node)]. *)
Definition move_to_end (h : list nat) (node : nat) : list nat :=
  filter (λ n, n ≠ node) h ++ [node].

(** No child of the head bears the marker attribute. *)
Definition unmarked_head (d : Document) : Prop :=
  ∀ node e, node ∈ doc_head d → doc_nodes d !! node = Some e →
            attributes e !! marker = None.

(** Every child of the head is an element of the store. *)
Definition head_in_store (d : Document) : Prop :=
  ∀ node, node ∈ doc_head d → node < length (doc_nodes d).

(** The state of an apply call that started in the document [d0], seen from
    the elements [d0] did not have: the store has not shrunk, the elements
    of [d0] are untouched, every recorded element is a later one, and so is
    every child of the head that [d0] did not have. *)
Definition fresh_above (d0 d : Document) (elements : list nat) : Prop :=
  length (doc_nodes d0) ≤ length (doc_nodes d) ∧
  (∀ node, node < length (doc_nodes d0) →
           doc_nodes d !! node = doc_nodes d0 !! node) ∧
  (∀ e, e ∈ elements → length (doc_nodes d0) ≤ e) ∧
  (∀ node, node ∈ doc_head d → node ∈ doc_head d0 ∨ length (doc_nodes d0) ≤ node).

(** No child of the head matches the selector of [tag]. *)
Definition unmatched (d : Document) (tag : string) : Prop :=
  ∀ node, node ∈ doc_head d → ¬ matches_marker d tag node.

(** A value of a tag kind that makes the effect place an element and leave
    it marked: an attribute set, or a sequence with an entry, none of them
    setting the marker attribute to undefined. *)
Definition places_element (v : Value) : Prop :=
  match v with
  | VObject _ attributes => (marker, AUndefined) ∉ attributes
  | VArray _ items =>
      items ≠ [] ∧ ∀ a, a ∈ items → (marker, AUndefined) ∉ a
  | _ => False
  end.

(** What a mutation of the journal acts on. *)
Inductive Target : Type := OnTitle | OnRoot | OnBody | OnElements.

Definition target (op : DomOp) : Target :=
  match op with
  | OpSetTitle _ => OnTitle
  | OpSetRootAttribute _ _ => OnRoot
  | OpSetBodyAttribute _ _ => OnBody
  | _ => OnElements
  end.

(** A tag kind the effect has nothing to do for: its value is the previous
    one under [!==], or it holds neither an attribute set nor a sequence
    with an entry. *)
Definition kind_skipped (next prev : gmap string Value) (tagName : string) : Prop :=
  strict_neq (get next tagName) (get prev tagName) = false ∨
  match get next tagName with
  | VObject _ _ => False
  | VArray _ items => items = []
  | _ => True
  end.

(** The assignment to [innerHTML] that ends [createOrUpdateElement], if a
    markup is given. *)
Definition html_assignment (html : option string) (node : nat) : list DomOp :=
  match html with
  | Some h => [OpSetInnerHTML node h]
  | None => []
  end.

(** An attribute set that removes the marker from the element it is applied
    to: some key that is the marker's name up to ASCII case has the value
    undefined. *)
Definition unsets_marker (a : Attributes) : Prop :=
  ∃ key, (key, AUndefined) ∈ a ∧ lowercase key = marker.

(** A value of a tag kind that makes the effect place an element and leave
    it marked: an attribute set, or a sequence with an entry, none of them
    removing the marker. *)
Definition places_marked_element (v : Value) : Prop :=
  match v with
  | VObject _ attributes => ¬ unsets_marker attributes
  | VArray _ items => items ≠ [] ∧ ∀ a, a ∈ items → ¬ unsets_marker a
  | _ => False
  end.

(** * Properties *)

(** ** Running computations *)

Lemma run_ret {A} (a : A) (w : World) : (mret a : M A) w = (a, w, []).
Proof. reflexivity. Qed.

Lemma run_bind {A B} (m : M A) (f : A → M B) (w : World) :
  (m ≫= f) w =
  (result (f (result (m w)) (world (m w))),
   world (f (result (m w)) (world (m w))),
   journal (m w) ++ journal (f (result (m w)) (world (m w)))).
Proof.
  unfold mbind, M_bind, result, world, journal.
  destruct (m w) as [[a w1] ops1]; simpl.
  destruct (f a w1) as [[b w2] ops2]; reflexivity.
Qed.

Lemma result_bind {A B} (m : M A) (f : A → M B) w :
  result ((m ≫= f) w) = result (f (result (m w)) (world (m w))).
Proof. by rewrite run_bind. Qed.

Lemma world_bind {A B} (m : M A) (f : A → M B) w :
  world ((m ≫= f) w) = world (f (result (m w)) (world (m w))).
Proof. by rewrite run_bind. Qed.

Lemma journal_bind {A B} (m : M A) (f : A → M B) w :
  journal ((m ≫= f) w) =
  journal (m w) ++ journal (f (result (m w)) (world (m w))).
Proof. by rewrite run_bind. Qed.

Lemma world_forEach_cons {A} (x : A) (l : list A) (f : A → M unit) w :
  world (forEach (x :: l) f w) = world (forEach l f (world (f x w))).
Proof. simpl. by rewrite world_bind. Qed.

Lemma journal_forEach_cons {A} (x : A) (l : list A) (f : A → M unit) w :
  journal (forEach (x :: l) f w) =
  journal (f x w) ++ journal (forEach l f (world (f x w))).
Proof. simpl. by rewrite journal_bind. Qed.

Lemma run_forEach_with_cons {A B} (x : A) (l : list A) (f : B → A → M B) acc w :
  forEach_with (x :: l) f acc w =
  (result (forEach_with l f (result (f acc x w)) (world (f acc x w))),
   world (forEach_with l f (result (f acc x w)) (world (f acc x w))),
   journal (f acc x w) ++
   journal (forEach_with l f (result (f acc x w)) (world (f acc x w)))).
Proof. simpl. by rewrite run_bind. Qed.

Lemma result_forEach_with_cons {A B} (x : A) (l : list A) (f : B → A → M B) acc w :
  result (forEach_with (x :: l) f acc w) =
  result (forEach_with l f (result (f acc x w)) (world (f acc x w))).
Proof. by rewrite run_forEach_with_cons. Qed.

Lemma world_forEach_with_cons {A B} (x : A) (l : list A) (f : B → A → M B) acc w :
  world (forEach_with (x :: l) f acc w) =
  world (forEach_with l f (result (f acc x w)) (world (f acc x w))).
Proof. by rewrite run_forEach_with_cons. Qed.

Lemma journal_forEach_with_cons {A B} (x : A) (l : list A) (f : B → A → M B) acc w :
  journal (forEach_with (x :: l) f acc w) =
  journal (f acc x w) ++
  journal (forEach_with l f (result (f acc x w)) (world (f acc x w))).
Proof. by rewrite run_forEach_with_cons. Qed.

(** *** Frames: what a computation leaves alone *)

Section Frame.
Context {X : Type} (π : World → X).

Lemma keeps_ret {A} (a : A) : keeps π (mret a).
Proof. by intros w. Qed.

Lemma keeps_bind {A B} (m : M A) (f : A → M B) :
  keeps π m → (∀ a, keeps π (f a)) → keeps π (m ≫= f).
Proof. intros Hm Hf w. rewrite world_bind, Hf. apply Hm. Qed.

Lemma keeps_forEach {A} (l : list A) (f : A → M unit) :
  (∀ x, keeps π (f x)) → keeps π (forEach l f).
Proof.
  intros Hf. induction l as [|x l IH]; simpl.
  - apply keeps_ret.
  - apply keeps_bind; [apply Hf | intros _; apply IH].
Qed.

Lemma keeps_forEach_with {A B} (l : list A) (f : B → A → M B) acc :
  (∀ b x, keeps π (f b x)) → keeps π (forEach_with l f acc).
Proof.
  intros Hf. revert acc. induction l as [|x l IH]; intros acc; simpl.
  - apply keeps_ret.
  - apply keeps_bind; [apply Hf | intros b; apply IH].
Qed.

Lemma keeps_read {A} (f : Document → A) : keeps π (read_document f).
Proof. by intros w. Qed.

End Frame.

Lemma keeps_createOrUpdateElement {X} (π : World → X) tag attrs html :
  nodes_blind π → keeps π (createOrUpdateElement tag attrs html).
Proof.
  intros Hπ.
  assert (∀ f node op, keeps π (update_document (alter_node f node) op)) as Halter.
  { intros f node op w. apply Hπ. }
  unfold createOrUpdateElement.
  apply keeps_bind; [apply keeps_read | intros found].
  apply keeps_bind.
  { destruct found; [apply keeps_ret |]. intros w. apply Hπ. }
  intros element.
  apply keeps_bind; [apply Halter | intros _].
  apply keeps_bind.
  { apply keeps_forEach. intros [key [| b | s]]; apply Halter. }
  intros _. apply keeps_bind; [| intros _; apply keeps_ret].
  destruct html; [apply Halter | apply keeps_ret].
Qed.

Lemma surroundings_blind : nodes_blind surroundings.
Proof. by intros w nodes. Qed.

Lemma head_blind : nodes_blind (doc_head ∘ document).
Proof. by intros w nodes. Qed.

Lemma keeps_with_head f op :
  keeps surroundings (update_document (with_head f) op).
Proof. by intros w. Qed.

Lemma keeps_place tag elements attrs :
  keeps surroundings (place tag elements attrs).
Proof.
  unfold place.
  apply keeps_bind;
    [apply keeps_createOrUpdateElement, surroundings_blind | intros element].
  apply keeps_bind; [apply keeps_with_head | intros _; apply keeps_ret].
Qed.

Lemma keeps_apply_tag next prev elements tag :
  keeps surroundings (apply_tag next prev elements tag).
Proof.
  unfold apply_tag.
  destruct (strict_neq _ _); [| apply keeps_ret].
  destruct (get next tag).
  1-3: apply keeps_ret.
  - apply keeps_place.
  - apply keeps_forEach_with. intros; apply keeps_place.
Qed.

Lemma keeps_cleanup elements : keeps surroundings (cleanup elements).
Proof.
  unfold cleanup. apply keeps_forEach. intros element.
  apply keeps_bind; [apply keeps_read | intros [|]].
  - apply keeps_with_head.
  - apply keeps_ret.
Qed.

(** ** Server mode: the aggregate *)

Lemma spread_lookup (a b : gmap string Value) (key : string) :
  spread a b !! key = match b !! key with Some v => Some v | None => a !! key end.
Proof.
  unfold spread. rewrite lookup_union.
  destruct (b !! key), (a !! key); reflexivity.
Qed.

Lemma run_merge prev next w :
  merge prev next w =
  ((prev, NoCleanup),
   mkWorld (spread (serverHeadmasterData w) next) (document w), []).
Proof. reflexivity. Qed.

(** C1.  On the server the effect merges a Descriptor into the aggregate by
    a shallow overwrite: every property the Descriptor has is afterwards the
    aggregate's property of that name, with exactly the submitted value, and
    every other property of the aggregate is kept.  After [merge(A)] then
    [merge(B)], if [B] declares [meta], the aggregate's [meta] is [B]'s
    value, whatever [A] declared: the sequence is replaced, not
    concatenated.  The merge touches nothing but the aggregate, hands back
    no cleanup and leaves the ref alone. *)
Theorem merge_shallow_overwrite
    (prev prev' A B : gmap string Value) (w : World) :
  let w1 := world (merge prev A w) in
  let w2 := world (merge prev' B w1) in
  (∀ key, serverHeadmasterData w1 !! key =
          match A !! key with
          | Some v => Some v
          | None => serverHeadmasterData w !! key
          end) ∧
  (∀ v, B !! "meta" = Some v → serverHeadmasterData w2 !! "meta" = Some v) ∧
  (∀ v, B !! "meta" = Some v → get (serverHeadmasterData w2) "meta" = v) ∧
  document w1 = document w ∧
  journal (merge prev A w) = [] ∧
  result (merge prev A w) = (prev, NoCleanup).
Proof.
  intros w1 w2. subst w1 w2. rewrite !run_merge. simpl.
  split; [intros key; apply spread_lookup |].
  split; [intros v Hv; by rewrite spread_lookup, Hv |].
  split; [intros v Hv; unfold get; by rewrite spread_lookup, Hv |].
  done.
Qed.

(** The spec's example for C1: two merges that both declare [meta]. *)
Lemma merge_shallow_overwrite_witness :
  let A : gmap string Value :=
    {[ "meta" := VArray 1 [[("name", AString "a")]; [("name", AString "b")]] ]} in
  let B : gmap string Value :=
    {[ "meta" := VArray 2 [[("name", AString "c")]] ]} in
  let w := mkWorld ∅ (mkDocument EmptyString ∅ ∅ [] []) in
  get (serverHeadmasterData (world (merge ∅ B (world (merge ∅ A w))))) "meta"
  = VArray 2 [[("name", AString "c")]].
Proof.
  intros A B w.
  apply (merge_shallow_overwrite ∅ ∅ A B w).
  reflexivity.
Defined.

(** ** The serializer *)

(** C2.  Called in a browser ([isServer] false) the serializer throws the
    documented error and leaves the world, the aggregate included, as it
    was; on the server it always returns a string.  The throw is the only
    failure the functions of the module can report. *)
Theorem renderServerHeadmaster_browser_throws (w : World) :
  result (renderServerHeadmaster false w) =
    Thrown "renderServerHeadmaster should only be called on the server side" ∧
  world (renderServerHeadmaster false w) = w ∧
  serverHeadmasterData (world (renderServerHeadmaster false w)) =
    serverHeadmasterData w ∧
  journal (renderServerHeadmaster false w) = [] ∧
  (∀ isServer, (∃ message, result (renderServerHeadmaster isServer w) = Thrown message)
               ↔ isServer = false).
Proof.
  repeat split; try reflexivity.
  - intros [message H]. destruct isServer; [discriminate H | reflexivity].
  - intros ->. eexists. reflexivity.
Qed.

(** *** Strings *)

Lemma append_cons a (s t : string) : String a s +:+ t = String a (s +:+ t).
Proof. reflexivity. Qed.

Lemma append_empty_r (s : string) : s +:+ EmptyString = s.
Proof. induction s as [|a s IH]; [reflexivity |]. by rewrite append_cons, IH. Qed.

Lemma append_assoc (s t u : string) : (s +:+ t) +:+ u = s +:+ t +:+ u.
Proof.
  induction s as [|a s IH]; [reflexivity |]. by rewrite !append_cons, IH.
Qed.

Lemma concat_empty_cons (x : string) (l : list string) :
  String.concat EmptyString (x :: l) = x +:+ String.concat EmptyString l.
Proof. destruct l; simpl; [by rewrite append_empty_r | reflexivity]. Qed.

Lemma fold_left_append {A} (g : string → A → string) (f : A → string)
    (l : list A) (s : string) :
  (∀ acc x, g acc x = acc +:+ f x) →
  fold_left g l s = s +:+ String.concat EmptyString (map f l).
Proof.
  intros Hg. revert s. induction l as [|x l IH]; intros s.
  - simpl. by rewrite append_empty_r.
  - cbn [fold_left map]. by rewrite IH, Hg, concat_empty_cons, append_assoc.
Qed.






(** *** The serializer against its description *)

Lemma render_tag_spec data headmasterString tagName :
  render_tag data headmasterString tagName =
  headmasterString +:+ spec_kind data tagName.
Proof.
  unfold render_tag, spec_kind. destruct (get data tagName).
  1-3: by rewrite append_empty_r.
  - reflexivity.
  - by apply fold_left_append.
Qed.

Lemma title_block_spec (title : Value) :
  (if truthy title
   then EmptyString +:+ ("<title>" +:+ Value_toString title +:+ "</title>")
   else EmptyString) = spec_title title.
Proof. destruct title as [| | [|a s] | |]; reflexivity. Qed.

Lemma run_renderServerHeadmaster (w : World) :
  renderServerHeadmaster true w =
  (Returned (spec_render (serverHeadmasterData w)), w, []).
Proof.
  unfold renderServerHeadmaster, spec_render. cbn [negb].
  rewrite title_block_spec.
  by rewrite (fold_left_append _ (spec_kind (serverHeadmasterData w)))
    by apply render_tag_spec.
Qed.

(** C3.  On the server [renderServerHeadmaster] returns one string: the
    title block, present exactly when the title is non-empty, followed by the
    elements of the tag kinds in the order base, meta, link, style, script,
    noscript, every sequence in entry order.  For the aggregate
    [{ title: "T", meta: [{ name: "d", content: "c" }] }] the string is
    [<title>T</title><meta name="d" content="c" />].  Rendering changes
    neither the aggregate nor anything else. *)
Theorem renderServerHeadmaster_output (w : World) :
  result (renderServerHeadmaster true w) =
    Returned (spec_render (serverHeadmasterData w)) ∧
  world (renderServerHeadmaster true w) = w ∧
  journal (renderServerHeadmaster true w) = [] ∧
  (∀ s, spec_title (VString s) =
        if decide (s = EmptyString) then EmptyString
        else "<title>" +:+ s +:+ "</title>") ∧
  spec_title VUndefined = EmptyString ∧
  (∀ d, result (renderServerHeadmaster true
          (mkWorld
             {[ "title" := VString "T";
                "meta" := VArray 0 [[("name", AString "d"); ("content", AString "c")]] ]}
             d)) =
        Returned ("<title>T</title><meta name=" +:+ dquote +:+ "d" +:+ dquote +:+
                  " content=" +:+ dquote +:+ "c" +:+ dquote +:+ " />")).
Proof.
  rewrite run_renderServerHeadmaster.
  split; [reflexivity |]. split; [reflexivity |]. split; [reflexivity |].
  split; [intros [|a s]; reflexivity |].
  split; [reflexivity |].
  intros d. rewrite run_renderServerHeadmaster. vm_compute. reflexivity.
Qed.

(** ** Browser mode *)

(** *** Change detection *)

Lemma strict_eq_refl (v : Value) : strict_eq v v = true.
Proof.
  destruct v; simpl; try reflexivity.
  - apply String.eqb_refl.
  - apply Nat.eqb_refl.
  - apply Nat.eqb_refl.
Qed.

Lemma strict_neq_refl (v : Value) : strict_neq v v = false.
Proof. unfold strict_neq. by rewrite strict_eq_refl. Qed.

Lemma strict_neq_object r r' m m' :
  r ≠ r' → strict_neq (VObject r' m') (VObject r m) = true.
Proof.
  intros H. unfold strict_neq. simpl.
  destruct (Nat.eqb_spec r' r); [congruence | reflexivity].
Qed.

Lemma strict_neq_array r r' l l' :
  r ≠ r' → strict_neq (VArray r' l') (VArray r l) = true.
Proof.
  intros H. unfold strict_neq. simpl.
  destruct (Nat.eqb_spec r' r); [congruence | reflexivity].
Qed.

Lemma get_lookup (o : gmap string Value) key v : o !! key = Some v → get o key = v.
Proof. unfold get. by intros ->. Qed.

(** *** Journals *)

Lemma journals_ret {A} P (a : A) : journals P (mret a).
Proof. intros w. constructor. Qed.

Lemma journals_bind {A B} P (m : M A) (f : A → M B) :
  journals P m → (∀ a, journals P (f a)) → journals P (m ≫= f).
Proof.
  intros Hm Hf w. rewrite journal_bind. apply Forall_app. split; [apply Hm | apply Hf].
Qed.

Lemma journals_forEach {A} P (l : list A) (f : A → M unit) :
  (∀ x, journals P (f x)) → journals P (forEach l f).
Proof.
  intros Hf. induction l as [|x l IH]; simpl.
  - apply journals_ret.
  - apply journals_bind; [apply Hf | intros _; apply IH].
Qed.

Lemma journals_read {A} P (f : Document → A) : journals P (read_document f).
Proof. intros w. constructor. Qed.

Lemma journals_update P f op : P op → journals P (update_document f op).
Proof. intros H w. by repeat constructor. Qed.

Lemma appends_app (a b : list DomOp) : appends (a ++ b) = appends a + appends b.
Proof. unfold appends. by rewrite List.filter_app, length_app. Qed.

Lemma appends_none (ops : list DomOp) :
  Forall (λ op, is_append op = false) ops → appends ops = 0.
Proof.
  unfold appends. induction 1 as [|op ops Hop _ IH]; [reflexivity |].
  simpl. by rewrite Hop.
Qed.

Lemma createOrUpdateElement_no_append tag attrs html :
  journals (λ op, is_append op = false) (createOrUpdateElement tag attrs html).
Proof.
  unfold createOrUpdateElement.
  apply journals_bind; [apply journals_read | intros found].
  apply journals_bind.
  { destruct found; [apply journals_ret |]. intros w. by repeat constructor. }
  intros element.
  apply journals_bind; [by apply journals_update | intros _].
  apply journals_bind.
  { apply journals_forEach. intros [key [| b | s]]; by apply journals_update. }
  intros _. apply journals_bind; [| intros _; apply journals_ret].
  destruct html; [by apply journals_update | apply journals_ret].
Qed.

Lemma appends_place tag elements attrs w :
  appends (journal (place tag elements attrs w)) = 1.
Proof.
  unfold place. rewrite journal_bind, appends_app.
  rewrite appends_none by apply createOrUpdateElement_no_append.
  reflexivity.
Qed.

Lemma appends_places tag items elements w :
  appends (journal (forEach_with items (place tag) elements w)) = length items.
Proof.
  revert elements w. induction items as [|attrs items IH]; intros elements w.
  - reflexivity.
  - rewrite run_forEach_with_cons. unfold journal at 1. cbn [snd].
    by rewrite appends_app, appends_place, IH.
Qed.

Lemma appends_tags next prev tag tags elements w :
  tag ∈ tags →
  strict_neq (get next tag) (get prev tag) = true →
  match get next tag with
  | VArray _ items => length items
  | VObject _ _ => 1
  | _ => 0
  end ≤ appends (journal (forEach_with tags (apply_tag next prev) elements w)).
Proof.
  intros Hin Hneq. revert elements w.
  induction tags as [|t tags IH]; intros elements w; [by apply elem_of_nil in Hin |].
  rewrite run_forEach_with_cons. unfold journal at 1. cbn [snd].
  rewrite appends_app.
  apply elem_of_cons in Hin as [<- | Hin].
  - assert (length_le : ∀ a b c, a ≤ b → a ≤ b + c) by lia.
    apply length_le. unfold apply_tag. rewrite Hneq.
    destruct (get next tag); try lia.
    + rewrite appends_place. lia.
    + rewrite appends_places. lia.
  - pose proof (IH Hin (result (apply_tag next prev elements t w))
                  (world (apply_tag next prev elements t w))).
    lia.
Qed.

(** *** The statements of the browser branch, one by one *)

Lemma run_apply prev next w :
  let r1 := apply_title next prev w in
  let r2 := apply_htmlAttributes next prev (world r1) in
  let r3 := apply_bodyAttributes next prev (world r2) in
  let r4 := forEach_with VALID_TAG_NAMES (apply_tag next prev) [] (world r3) in
  apply prev next w =
  ((next, CleanupOf (result r4)), world r4,
   journal r1 ++ journal r2 ++ journal r3 ++ journal r4).
Proof.
  intros r1 r2 r3 r4. unfold apply, useHeadmaster_effect.
  rewrite !run_bind, run_ret. unfold world at 1, result at 1, journal at 4.
  cbn [fst snd]. by rewrite app_nil_r.
Qed.

Lemma result_apply prev next w :
  result (apply prev next w) =
  (next,
   CleanupOf (result (forEach_with VALID_TAG_NAMES (apply_tag next prev) []
     (world (apply_bodyAttributes next prev
        (world (apply_htmlAttributes next prev
           (world (apply_title next prev w))))))))).
Proof. by rewrite run_apply. Qed.

Lemma world_apply prev next w :
  world (apply prev next w) =
  world (forEach_with VALID_TAG_NAMES (apply_tag next prev) []
    (world (apply_bodyAttributes next prev
       (world (apply_htmlAttributes next prev
          (world (apply_title next prev w))))))).
Proof. by rewrite run_apply. Qed.

Lemma journal_apply prev next w :
  journal (apply prev next w) =
  journal (apply_title next prev w) ++
  journal (apply_htmlAttributes next prev (world (apply_title next prev w))) ++
  journal (apply_bodyAttributes next prev
    (world (apply_htmlAttributes next prev
       (world (apply_title next prev w))))) ++
  journal (forEach_with VALID_TAG_NAMES (apply_tag next prev) []
    (world (apply_bodyAttributes next prev
       (world (apply_htmlAttributes next prev
          (world (apply_title next prev w))))))).
Proof. by rewrite run_apply. Qed.

Lemma journal_root_forEach entries w :
  journal (forEach entries
    (λ '(key, value), documentElement_setAttribute key (toString value)) w) =
  map (λ e, OpSetRootAttribute e.1 (toString e.2)) entries.
Proof.
  revert w. induction entries as [|[k v] entries IH]; intros w; [reflexivity |].
  rewrite journal_forEach_cons, IH. reflexivity.
Qed.

Lemma root_root_forEach entries w :
  doc_documentElement (document (world (forEach entries
    (λ '(key, value), documentElement_setAttribute key (toString value)) w))) =
  fold_left put_attribute entries (doc_documentElement (document w)).
Proof.
  revert w. induction entries as [|[k v] entries IH]; intros w; [reflexivity |].
  rewrite world_forEach_cons, IH. reflexivity.
Qed.

Lemma journal_body_forEach entries w :
  journal (forEach entries
    (λ '(key, value), body_setAttribute key (toString value)) w) =
  map (λ e, OpSetBodyAttribute e.1 (toString e.2)) entries.
Proof.
  revert w. induction entries as [|[k v] entries IH]; intros w; [reflexivity |].
  rewrite journal_forEach_cons, IH. reflexivity.
Qed.

Lemma body_body_forEach entries w :
  doc_body (document (world (forEach entries
    (λ '(key, value), body_setAttribute key (toString value)) w))) =
  fold_left put_attribute entries (doc_body (document w)).
Proof.
  revert w. induction entries as [|[k v] entries IH]; intros w; [reflexivity |].
  rewrite world_forEach_cons, IH. reflexivity.
Qed.

(** Attribute maps under a run of [setAttribute]. *)

Lemma put_attributes_other entries (a : gmap string string) name :
  name ∉ lowercase <$> entries.*1 →
  fold_left put_attribute entries a !! name = a !! name.
Proof.
  revert a. induction entries as [|[k v] entries IH]; intros a Hk; [reflexivity |].
  rewrite !fmap_cons, not_elem_of_cons in Hk. destruct Hk as [Hne Hk].
  cbn [fold_left]. rewrite IH by done. unfold put_attribute.
  by rewrite lookup_insert_ne.
Qed.

Lemma put_attributes_set entries (a : gmap string string) key value :
  NoDup (lowercase <$> entries.*1) → (key, value) ∈ entries →
  fold_left put_attribute entries a !! lowercase key = Some (toString value).
Proof.
  revert a. induction entries as [|[k v] entries IH]; intros a Hnd Hin.
  { by apply elem_of_nil in Hin. }
  rewrite !fmap_cons in Hnd. apply NoDup_cons in Hnd as [Hk Hnd].
  cbn [fold_left]. apply elem_of_cons in Hin as [[= -> ->] | Hin].
  - rewrite put_attributes_other by done. unfold put_attribute.
    apply lookup_insert_eq.
  - by apply IH.
Qed.

Lemma put_attributes_keeps entries (a : gmap string string) name :
  is_Some (a !! name) → is_Some (fold_left put_attribute entries a !! name).
Proof.
  revert a. induction entries as [|[k v] entries IH]; intros a Ha; [done |].
  cbn [fold_left]. apply IH. unfold put_attribute. rewrite lookup_insert.
  case_decide; [by eexists | done].
Qed.

(** What each statement leaves alone. *)

Lemma keeps_update {X} (π : World → X) f op :
  (∀ w, π (mkWorld (serverHeadmasterData w) (f (document w))) = π w) →
  keeps π (update_document f op).
Proof. intros H w. apply H. Qed.

Lemma apply_title_keeps {X} (π : Document → X) next prev :
  (∀ d s, π (mkDocument s (doc_documentElement d) (doc_body d) (doc_nodes d)
               (doc_head d)) = π d) →
  keeps (π ∘ document) (apply_title next prev).
Proof.
  intros H. unfold apply_title. destruct (strict_neq _ _); [| apply keeps_ret].
  intros w. apply H.
Qed.

Lemma apply_htmlAttributes_keeps {X} (π : Document → X) next prev :
  (∀ d a, π (mkDocument (doc_title d) a (doc_body d) (doc_nodes d)
               (doc_head d)) = π d) →
  keeps (π ∘ document) (apply_htmlAttributes next prev).
Proof.
  intros H. unfold apply_htmlAttributes.
  destruct (strict_neq _ _); [| apply keeps_ret].
  apply keeps_forEach. intros [k v] w. apply H.
Qed.

Lemma apply_bodyAttributes_keeps {X} (π : Document → X) next prev :
  (∀ d a, π (mkDocument (doc_title d) (doc_documentElement d) a (doc_nodes d)
               (doc_head d)) = π d) →
  keeps (π ∘ document) (apply_bodyAttributes next prev).
Proof.
  intros H. unfold apply_bodyAttributes.
  destruct (strict_neq _ _); [| apply keeps_ret].
  apply keeps_forEach. intros [k v] w. apply H.
Qed.

Lemma apply_tags_keeps next prev elements :
  keeps surroundings
    (forEach_with VALID_TAG_NAMES (apply_tag next prev) elements).
Proof. apply keeps_forEach_with. intros. apply keeps_apply_tag. Qed.

Lemma apply_title_result prev next w :
  doc_title (document (world (apply prev next w))) =
  if strict_neq (get next "title") (get prev "title")
  then title_or_empty (get next "title")
  else doc_title (document w).
Proof.
  rewrite run_apply. unfold world at 1. cbn [fst snd].
  change (doc_title (document ?w)) with (sur_title (surroundings w)).
  rewrite apply_tags_keeps.
  change (sur_title (surroundings ?w)) with ((doc_title ∘ document) w).
  rewrite apply_bodyAttributes_keeps, apply_htmlAttributes_keeps by done.
  unfold apply_title. by destruct (strict_neq _ _).
Qed.

Lemma apply_documentElement_result prev next w :
  doc_documentElement (document (world (apply prev next w))) =
  if strict_neq (get next "htmlAttributes") (get prev "htmlAttributes")
  then fold_left put_attribute (entries_or_empty (get next "htmlAttributes"))
         (doc_documentElement (document w))
  else doc_documentElement (document w).
Proof.
  rewrite run_apply. unfold world at 1. cbn [fst snd].
  change (doc_documentElement (document ?w))
    with (sur_documentElement (surroundings w)) at 1.
  rewrite apply_tags_keeps.
  change (sur_documentElement (surroundings ?w))
    with ((doc_documentElement ∘ document) w).
  rewrite apply_bodyAttributes_keeps by done.
  pose proof (apply_title_keeps doc_documentElement next prev
                (λ _ _, eq_refl) w) as Ht.
  cbn [compose] in *. unfold apply_htmlAttributes.
  destruct (strict_neq _ _); [| exact Ht].
  by rewrite root_root_forEach, Ht.
Qed.

Lemma apply_body_result prev next w :
  doc_body (document (world (apply prev next w))) =
  if strict_neq (get next "bodyAttributes") (get prev "bodyAttributes")
  then fold_left put_attribute (entries_or_empty (get next "bodyAttributes"))
         (doc_body (document w))
  else doc_body (document w).
Proof.
  rewrite run_apply. unfold world at 1. cbn [fst snd].
  change (doc_body (document ?w)) with (sur_body (surroundings w)) at 1.
  rewrite apply_tags_keeps.
  pose proof (apply_title_keeps doc_body next prev (λ _ _, eq_refl) w) as Ht.
  pose proof (apply_htmlAttributes_keeps doc_body next prev (λ _ _, eq_refl)
                (world (apply_title next prev w))) as Hh.
  cbn [compose surroundings sur_body] in *. rewrite <- Ht, <- Hh.
  unfold apply_bodyAttributes.
  destruct (strict_neq _ _); [| reflexivity].
  by rewrite body_body_forEach.
Qed.

(** *** Title *)

(** C8.  In a browser, when the title of the new Descriptor differs from the
    previous one under [!==], the effect assigns the document title: the new
    title if the Descriptor has one, the empty string if the property is
    missing or undefined, and no later statement of the effect writes it.
    The title read afterwards is the assigned string with its ASCII
    whitespace stripped and collapsed: the new title itself when it has no
    whitespace at its ends and none but single spaces inside, the empty
    string when the Descriptor has no title. *)
Theorem apply_sets_title (prev next : gmap string Value) (w : World) :
  strict_neq (get next "title") (get prev "title") = true →
  let r := apply prev next w in
  let d' := document (world r) in
  OpSetTitle (title_or_empty (get next "title")) ∈ journal r ∧
  doc_title d' = title_or_empty (get next "title") ∧
  document_title d' = strip_and_collapse (title_or_empty (get next "title")) ∧
  (∀ s, next !! "title" = Some (VString s) →
        doc_title d' = s ∧ document_title d' = strip_and_collapse s) ∧
  (∀ s, next !! "title" = Some (VString s) → strip_and_collapse s = s →
        document_title d' = s) ∧
  (next !! "title" = None ∨ next !! "title" = Some VUndefined →
   doc_title d' = EmptyString ∧ document_title d' = EmptyString).
Proof.
  intros Hneq r d'. subst r d'. unfold document_title.
  rewrite apply_title_result, Hneq.
  split.
  { rewrite run_apply. unfold journal at 1. cbn [snd].
    apply elem_of_app. left. unfold apply_title. rewrite Hneq.
    apply list_elem_of_singleton. reflexivity. }
  split; [reflexivity |]. split; [reflexivity |].
  assert (∀ s, next !! "title" = Some (VString s) →
               title_or_empty (get next "title") = s) as Hstring.
  { intros s Hs. rewrite (get_lookup _ _ _ Hs).
    unfold title_or_empty. destruct s; reflexivity. }
  split; [| split].
  - intros s Hs. by rewrite (Hstring s Hs).
  - intros s Hs Hnorm. by rewrite (Hstring s Hs).
  - intros [Hn | Hu]; unfold get; [rewrite Hn | rewrite Hu]; by split.
Qed.

(** A new title with blanks around and inside: the text assigned is the
    title as it is, the title read back has them stripped and collapsed. *)
Lemma apply_sets_title_witness :
  let prev : gmap string Value := {[ "title" := VString "Home" ]} in
  let next : gmap string Value := {[ "title" := VString "  About   us " ]} in
  let w := mkWorld ∅ (mkDocument "Home" ∅ ∅ [] []) in
  doc_title (document (world (apply prev next w))) = "  About   us " ∧
  document_title (document (world (apply prev next w))) = "About us".
Proof.
  intros prev next w.
  assert (strict_neq (get next "title") (get prev "title") = true) as Hneq
    by reflexivity.
  destruct (apply_sets_title prev next w Hneq) as (_ & _ & _ & Hs & _).
  destruct (Hs "  About   us " eq_refl) as [Htext Hread].
  split; [exact Htext | exact Hread].
Defined.

(** The title read after the call is not always the Descriptor's title. *)
Lemma apply_title_read_back_counterexample :
  let prev : gmap string Value := ∅ in
  let next : gmap string Value := {[ "title" := VString "  A   B  " ]} in
  let w := mkWorld ∅ (mkDocument EmptyString ∅ ∅ [] []) in
  strict_neq (get next "title") (get prev "title") = true ∧
  next !! "title" = Some (VString "  A   B  ") ∧
  document_title (document (world (apply prev next w))) = "A B" ∧
  document_title (document (world (apply prev next w))) ≠ "  A   B  ".
Proof.
  intros prev next w.
  split; [reflexivity |]. split; [reflexivity |]. split; [reflexivity |].
  discriminate.
Qed.

(** *** Root and body attributes *)

Lemma journal_root_apply prev next w r m key value :
  strict_neq (get next "htmlAttributes") (get prev "htmlAttributes") = true →
  next !! "htmlAttributes" = Some (VObject r m) → (key, value) ∈ m →
  OpSetRootAttribute key (toString value) ∈ journal (apply prev next w).
Proof.
  intros Hneq Hm Hin. rewrite journal_apply.
  apply elem_of_app. right. apply elem_of_app. left.
  unfold apply_htmlAttributes. rewrite Hneq, (get_lookup _ _ _ Hm).
  cbn [entries_or_empty]. rewrite journal_root_forEach.
  by apply (list_elem_of_fmap_2 (λ e, OpSetRootAttribute e.1 (toString e.2))) in Hin.
Qed.

Lemma journal_body_apply prev next w r m key value :
  strict_neq (get next "bodyAttributes") (get prev "bodyAttributes") = true →
  next !! "bodyAttributes" = Some (VObject r m) → (key, value) ∈ m →
  OpSetBodyAttribute key (toString value) ∈ journal (apply prev next w).
Proof.
  intros Hneq Hm Hin. rewrite journal_apply.
  apply elem_of_app. right. apply elem_of_app. right. apply elem_of_app. left.
  unfold apply_bodyAttributes. rewrite Hneq, (get_lookup _ _ _ Hm).
  cbn [entries_or_empty]. rewrite journal_body_forEach.
  by apply (list_elem_of_fmap_2 (λ e, OpSetBodyAttribute e.1 (toString e.2))) in Hin.
Qed.

(** C7.  The effect never removes an attribute of the root or of the body
    element: an attribute present before is present afterwards.  When the
    [htmlAttributes] (resp. [bodyAttributes]) property has changed under
    [!==] and holds a map, [setAttribute] is called on the root (resp. body)
    element for every pair of the map; when the keys of the map are distinct
    up to ASCII case, every key reads afterwards as the string conversion of
    its value; and an attribute whose name is not a key of the new map in
    ASCII lowercase, the form in which the element keeps names, has the
    value it had, also when the previous map had set it. *)
Theorem apply_attributes_monotonic (prev next : gmap string Value) (w : World) :
  let d := document w in
  let d' := document (world (apply prev next w)) in
  (∀ name, is_Some (doc_documentElement d !! name) →
           is_Some (doc_documentElement d' !! name)) ∧
  (∀ name, is_Some (doc_body d !! name) → is_Some (doc_body d' !! name)) ∧
  (∀ r m,
     strict_neq (get next "htmlAttributes") (get prev "htmlAttributes") = true →
     next !! "htmlAttributes" = Some (VObject r m) →
     (∀ key value, (key, value) ∈ m →
        OpSetRootAttribute key (toString value) ∈ journal (apply prev next w)) ∧
     (NoDup (lowercase <$> m.*1) →
      ∀ key value, (key, value) ∈ m →
        getAttribute (doc_documentElement d') key = Some (toString value)) ∧
     (∀ name, name ∉ lowercase <$> m.*1 →
        doc_documentElement d' !! name = doc_documentElement d !! name)) ∧
  (∀ r m,
     strict_neq (get next "bodyAttributes") (get prev "bodyAttributes") = true →
     next !! "bodyAttributes" = Some (VObject r m) →
     (∀ key value, (key, value) ∈ m →
        OpSetBodyAttribute key (toString value) ∈ journal (apply prev next w)) ∧
     (NoDup (lowercase <$> m.*1) →
      ∀ key value, (key, value) ∈ m →
        getAttribute (doc_body d') key = Some (toString value)) ∧
     (∀ name, name ∉ lowercase <$> m.*1 →
        doc_body d' !! name = doc_body d !! name)).
Proof.
  intros d d'. subst d d'. unfold getAttribute.
  rewrite apply_documentElement_result, apply_body_result.
  split; [| split; [| split]].
  - intros name Hk. destruct (strict_neq _ _); [| done].
    by apply put_attributes_keeps.
  - intros name Hk. destruct (strict_neq _ _); [| done].
    by apply put_attributes_keeps.
  - intros r m Hneq Hm.
    split; [intros key value; by apply (journal_root_apply prev next w r m) |].
    rewrite Hneq, (get_lookup _ _ _ Hm). cbn [entries_or_empty].
    split; intros; [by apply put_attributes_set | by apply put_attributes_other].
  - intros r m Hneq Hm.
    split; [intros key value; by apply (journal_body_apply prev next w r m) |].
    rewrite Hneq, (get_lookup _ _ _ Hm). cbn [entries_or_empty].
    split; intros; [by apply put_attributes_set | by apply put_attributes_other].
Qed.

(** An update whose map spells [lang] in capitals and drops [class]: the
    root's [lang] attribute takes the new value and [class], set by the
    previous update, stays. *)
Lemma apply_attributes_monotonic_witness :
  let prev : gmap string Value :=
    {[ "htmlAttributes" := VObject 1 [("lang", AString "en"); ("class", AString "dark")] ]} in
  let next : gmap string Value :=
    {[ "htmlAttributes" := VObject 2 [("LANG", AString "fr")] ]} in
  let w := mkWorld ∅ (mkDocument EmptyString ∅ ∅ [] []) in
  let w1 := world (apply ∅ prev w) in
  let d' := document (world (apply prev next w1)) in
  getAttribute (doc_documentElement d') "LANG" = Some "fr" ∧
  doc_documentElement d' !! "lang" = Some "fr" ∧
  doc_documentElement d' !! "class" = Some "dark".
Proof.
  intros prev next w w1 d'.
  destruct (apply_attributes_monotonic prev next w1) as (_ & _ & Hset & _).
  destruct (Hset 2 [("LANG", AString "fr")] eq_refl eq_refl) as (_ & Hread & Hframe).
  assert (getAttribute (doc_documentElement d') "LANG" = Some "fr") as HL.
  { apply (Hread (NoDup_singleton _) "LANG" (AString "fr")).
    apply list_elem_of_singleton. reflexivity. }
  split; [exact HL |]. split; [exact HL |].
  unfold d'. rewrite (Hframe "class"); [reflexivity |].
  intros Hin%list_elem_of_singleton. discriminate Hin.
Defined.

(** *** Reference equality *)

Lemma apply_tag_same D elements tag : apply_tag D D elements tag = mret elements.
Proof. unfold apply_tag. by rewrite strict_neq_refl. Qed.

Lemma run_tags_same (D : gmap string Value) tags elements w :
  forEach_with tags (apply_tag D D) elements w = (elements, w, []).
Proof.
  induction tags as [|tag tags IH]; [reflexivity |].
  cbn [forEach_with]. unfold mbind, M_bind.
  by rewrite apply_tag_same, run_ret, IH.
Qed.

Lemma run_apply_same (D : gmap string Value) (w : World) :
  apply D D w = ((D, CleanupOf []), w, []).
Proof.
  rewrite run_apply.
  unfold apply_title, apply_htmlAttributes, apply_bodyAttributes.
  rewrite !strict_neq_refl, !run_ret. unfold world, result, journal.
  cbn [fst snd]. rewrite run_tags_same. reflexivity.
Qed.

(** C4.  Change detection in a browser compares each property of the new
    Descriptor with the previous one by [!==].  Applying the Descriptor that
    was applied before performs no mutation of the document at all: the
    journal is empty, the world is the one before and no element is
    recorded.  A property holding another object than before is applied
    again although its contents are the same: every pair of such a root or
    body map is written again, and a tag kind triggers one [appendChild] per
    entry of its sequence (one for a single attribute set). *)
Theorem apply_reference_equality (D prev next : gmap string Value) (w : World) :
  apply D D w = ((D, CleanupOf []), w, []) ∧
  (∀ r r' m key value,
     r ≠ r' →
     prev !! "htmlAttributes" = Some (VObject r m) →
     next !! "htmlAttributes" = Some (VObject r' m) →
     (key, value) ∈ m →
     OpSetRootAttribute key (toString value) ∈ journal (apply prev next w)) ∧
  (∀ r r' m key value,
     r ≠ r' →
     prev !! "bodyAttributes" = Some (VObject r m) →
     next !! "bodyAttributes" = Some (VObject r' m) →
     (key, value) ∈ m →
     OpSetBodyAttribute key (toString value) ∈ journal (apply prev next w)) ∧
  (∀ tagName r r' items,
     tagName ∈ VALID_TAG_NAMES → r ≠ r' →
     prev !! tagName = Some (VArray r items) →
     next !! tagName = Some (VArray r' items) →
     length items ≤ appends (journal (apply prev next w))) ∧
  (∀ tagName r r' attributes,
     tagName ∈ VALID_TAG_NAMES → r ≠ r' →
     prev !! tagName = Some (VObject r attributes) →
     next !! tagName = Some (VObject r' attributes) →
     1 ≤ appends (journal (apply prev next w))).
Proof.
  split; [apply run_apply_same |].
  rewrite run_apply. unfold journal at 1 6 11 16. cbn [snd].
  split; [| split; [| split]].
  - intros r r' m key value Hr Hp Hn Hin.
    apply elem_of_app. right. apply elem_of_app. left.
    unfold apply_htmlAttributes.
    rewrite (get_lookup _ _ _ Hp), (get_lookup _ _ _ Hn), strict_neq_object by done.
    rewrite journal_root_forEach.
    by apply (list_elem_of_fmap_2 (λ e, OpSetRootAttribute e.1 (toString e.2))) in Hin.
  - intros r r' m key value Hr Hp Hn Hin.
    apply elem_of_app. right. apply elem_of_app. right. apply elem_of_app. left.
    unfold apply_bodyAttributes.
    rewrite (get_lookup _ _ _ Hp), (get_lookup _ _ _ Hn), strict_neq_object by done.
    rewrite journal_body_forEach.
    by apply (list_elem_of_fmap_2 (λ e, OpSetBodyAttribute e.1 (toString e.2))) in Hin.
  - intros tagName r r' items Htag Hr Hp Hn.
    rewrite !appends_app.
    match goal with
    | |- _ ≤ _ + (_ + (_ + appends (journal (forEach_with ?t ?f ?e ?w0)))) =>
        pose proof (appends_tags next prev tagName t e w0 Htag) as Hle
    end.
    rewrite (get_lookup _ _ _ Hp), (get_lookup _ _ _ Hn) in Hle.
    specialize (Hle (strict_neq_array _ _ _ _ Hr)). lia.
  - intros tagName r r' attributes Htag Hr Hp Hn.
    rewrite !appends_app.
    match goal with
    | |- _ ≤ _ + (_ + (_ + appends (journal (forEach_with ?t ?f ?e ?w0)))) =>
        pose proof (appends_tags next prev tagName t e w0 Htag) as Hle
    end.
    rewrite (get_lookup _ _ _ Hp), (get_lookup _ _ _ Hn) in Hle.
    specialize (Hle (strict_neq_object _ _ _ _ Hr)). lia.
Qed.

(** A Descriptor rebuilt with the same contents: the map and the sequence
    are new objects, so the root attribute is written and the link is
    appended once more, while the same Descriptor applied twice does
    nothing. *)
Lemma apply_reference_equality_witness :
  let D1 : gmap string Value :=
    {[ "htmlAttributes" := VObject 1 [("lang", AString "en")];
       "link" := VArray 2 [[("rel", AString "canonical")]] ]} in
  let D2 : gmap string Value :=
    {[ "htmlAttributes" := VObject 3 [("lang", AString "en")];
       "link" := VArray 4 [[("rel", AString "canonical")]] ]} in
  let w := world (apply ∅ D1 (mkWorld ∅ (mkDocument EmptyString ∅ ∅ [] []))) in
  journal (apply D1 D1 w) = [] ∧
  OpSetRootAttribute "lang" "en" ∈ journal (apply D1 D2 w) ∧
  1 ≤ appends (journal (apply D1 D2 w)).
Proof.
  intros D1 D2 w.
  destruct (apply_reference_equality D1 D1 D2 w) as (Hsame & Hroot & _ & Htag & _).
  split; [by rewrite Hsame |]. split.
  - apply (Hroot 1 3 [("lang", AString "en")] "lang" (AString "en"));
      [lia | reflexivity | reflexivity |].
    apply list_elem_of_singleton. reflexivity.
  - apply (Htag "link" 2 4 [[("rel", AString "canonical")]]);
      [| lia | reflexivity | reflexivity].
    unfold VALID_TAG_NAMES. apply list_elem_of_In. simpl. tauto.
Defined.

(** *** Teardown *)

Lemma filter_all {A} (P : A → Prop) `{!∀ x, Decision (P x)} (l : list A) :
  (∀ x, x ∈ l → P x) → filter P l = l.
Proof.
  induction l as [|x l IH]; intros Hl; [reflexivity |].
  rewrite filter_cons_True by (apply Hl; by left).
  f_equal. apply IH. intros y Hy. apply Hl. by right.
Qed.

Lemma head_cleanup elements w :
  doc_head (document (world (cleanup elements w))) =
  filter (λ node, node ∉ elements) (doc_head (document w)).
Proof.
  unfold cleanup. revert w.
  induction elements as [|e elements IH]; intros w.
  - simpl. symmetry. apply filter_all. intros x _. apply not_elem_of_nil.
  - rewrite world_forEach_cons, IH. clear IH.
    rewrite world_bind. unfold parentNode, read_document, result, world at 2.
    cbn [fst snd].
    assert (doc_head (document (world
               ((if bool_decide (e ∈ doc_head (document w))
                 then parentNode_removeChild e else mret ()) w))) =
            filter (λ n, n ≠ e) (doc_head (document w))) as ->.
    { case_bool_decide as He; [reflexivity |].
      symmetry. apply filter_all. intros x Hx ->. contradiction. }
    rewrite list_filter_filter. apply list_filter_iff.
    intros x. rewrite not_elem_of_cons. tauto.
Qed.

Lemma nodes_cleanup elements : keeps (doc_nodes ∘ document) (cleanup elements).
Proof.
  unfold cleanup. apply keeps_forEach. intros element.
  apply keeps_bind; [apply keeps_read | intros [|]]; [| apply keeps_ret].
  by intros w.
Qed.

Lemma journal_cleanup elements :
  journals (λ op, ∃ node, op = OpRemoveChild node ∧ node ∈ elements)
    (cleanup elements).
Proof.
  unfold cleanup.
  assert (∀ l, (∀ x, x ∈ l → x ∈ elements) →
            journals (λ op, ∃ node, op = OpRemoveChild node ∧ node ∈ elements)
              (forEach l (λ element,
                 attached ← parentNode element;
                 if (attached : bool) then parentNode_removeChild element
                 else mret ()))) as H; [| by apply H].
  induction l as [|e l IH]; intros Hl; [apply journals_ret |].
  cbn [forEach]. apply journals_bind.
  - apply journals_bind; [apply journals_read | intros [|]].
    + apply journals_update. exists e. split; [done |]. apply Hl. by left.
    + apply journals_ret.
  - intros _. apply IH. intros x Hx. apply Hl. by right.
Qed.

(** *** What an apply call records *)

Lemma appended_app (a b : list DomOp) : appended (a ++ b) = appended a ++ appended b.
Proof. apply omap_app. Qed.

Lemma appended_none (ops : list DomOp) :
  Forall (λ op, is_append op = false) ops → appended ops = [].
Proof.
  induction 1 as [|op ops Hop _ IH]; [reflexivity |].
  destruct op; try discriminate Hop; exact IH.
Qed.

Lemma result_place tag elements attrs w :
  result (place tag elements attrs w) =
  elements ++ appended (journal (place tag elements attrs w)).
Proof.
  unfold place. rewrite result_bind, journal_bind, appended_app.
  rewrite appended_none by apply createOrUpdateElement_no_append.
  reflexivity.
Qed.

Lemma result_forEach_with_appended {A} (f : list nat → A → M (list nat))
    (l : list A) elements w :
  (∀ els x w, result (f els x w) = els ++ appended (journal (f els x w))) →
  result (forEach_with l f elements w) =
  elements ++ appended (journal (forEach_with l f elements w)).
Proof.
  intros Hf. revert elements w. induction l as [|x l IH]; intros elements w.
  - simpl. by rewrite app_nil_r.
  - rewrite result_forEach_with_cons, journal_forEach_with_cons.
    by rewrite IH, Hf, appended_app, app_assoc.
Qed.

Lemma result_apply_tag next prev elements tag w :
  result (apply_tag next prev elements tag w) =
  elements ++ appended (journal (apply_tag next prev elements tag w)).
Proof.
  unfold apply_tag. destruct (strict_neq _ _); [| simpl; by rewrite app_nil_r].
  destruct (get next tag).
  1-3: simpl; by rewrite app_nil_r.
  - apply result_place.
  - apply result_forEach_with_appended. intros. apply result_place.
Qed.

Lemma apply_records prev next w :
  (result (apply prev next w)).2 =
  CleanupOf (appended (journal (apply prev next w))).
Proof.
  rewrite result_apply, journal_apply. cbn [snd].
  rewrite !appended_app.
  rewrite (appended_none (journal (apply_title _ _ _))).
  2:{ unfold apply_title. destruct (strict_neq _ _); [| constructor].
      by repeat constructor. }
  rewrite (appended_none (journal (apply_htmlAttributes _ _ _))).
  2:{ unfold apply_htmlAttributes. destruct (strict_neq _ _); [| constructor].
      apply journals_forEach. intros [k v]. by apply journals_update. }
  rewrite (appended_none (journal (apply_bodyAttributes _ _ _))).
  2:{ unfold apply_bodyAttributes. destruct (strict_neq _ _); [| constructor].
      apply journals_forEach. intros [k v]. by apply journals_update. }
  f_equal.
  rewrite (result_forEach_with_appended (apply_tag next prev)); [done |].
  intros. apply result_apply_tag.
Qed.

(** Every recorded element hangs in the head when the call returns. *)

Lemma attached_place tag elements attrs w :
  (∀ node, node ∈ elements → node ∈ doc_head (document w)) →
  ∀ node, node ∈ result (place tag elements attrs w) →
          node ∈ doc_head (document (world (place tag elements attrs w))).
Proof.
  intros Hels node. unfold place.
  rewrite result_bind, world_bind.
  pose proof (keeps_createOrUpdateElement _ tag attrs None head_blind w) as Hhead.
  cbn [compose] in Hhead.
  set (r := createOrUpdateElement tag attrs None w) in *.
  change (node ∈ elements ++ [result r] →
          node ∈ filter (λ n, n ≠ result r) (doc_head (document (world r)))
                 ++ [result r]).
  rewrite Hhead, !elem_of_app, list_elem_of_singleton, list_elem_of_filter.
  intros [Hin | ->]; [| by right].
  destruct (decide (node = result r)); [by right | left; auto].
Qed.

Lemma attached_forEach_with {A} (f : list nat → A → M (list nat))
    (l : list A) elements w :
  (∀ els x w,
     (∀ node, node ∈ els → node ∈ doc_head (document w)) →
     ∀ node, node ∈ result (f els x w) →
             node ∈ doc_head (document (world (f els x w)))) →
  (∀ node, node ∈ elements → node ∈ doc_head (document w)) →
  ∀ node, node ∈ result (forEach_with l f elements w) →
          node ∈ doc_head (document (world (forEach_with l f elements w))).
Proof.
  intros Hf. revert elements w. induction l as [|x l IH]; intros elements w Hels.
  - exact Hels.
  - rewrite result_forEach_with_cons, world_forEach_with_cons.
    apply IH. by apply Hf.
Qed.

Lemma attached_apply_tag next prev elements tag w :
  (∀ node, node ∈ elements → node ∈ doc_head (document w)) →
  ∀ node, node ∈ result (apply_tag next prev elements tag w) →
          node ∈ doc_head (document (world (apply_tag next prev elements tag w))).
Proof.
  intros Hels. unfold apply_tag. destruct (strict_neq _ _); [| exact Hels].
  destruct (get next tag).
  1-3: exact Hels.
  - by apply attached_place.
  - apply attached_forEach_with; [| done]. intros. by apply attached_place.
Qed.

Lemma apply_attached prev next w node :
  node ∈ recorded (result (apply prev next w)).2 →
  node ∈ doc_head (document (world (apply prev next w))).
Proof.
  rewrite result_apply, world_apply. cbn [snd recorded].
  apply attached_forEach_with.
  - intros. by apply attached_apply_tag.
  - intros n Hn. by apply elem_of_nil in Hn.
Qed.

(** C6.  The cleanup closure an apply call returns captures the elements
    the call recorded, which are exactly the elements the call appended to
    the head, all of them attached when the call returns.  Invoked in any
    later state of the document, the closure leaves in the head exactly the
    children that are not recorded, in their order: every recorded element
    is detached and no other element is.  It performs no mutation but
    [removeChild] on recorded elements and changes no element. *)
Theorem cleanup_removes_recorded (prev next : gmap string Value) (w later : World) :
  let r := apply prev next w in
  let elements := recorded (result r).2 in
  let after := document (world (run_cleanup (result r).2 later)) in
  (result r).2 = CleanupOf elements ∧
  elements = appended (journal r) ∧
  (∀ node, node ∈ elements → node ∈ doc_head (document (world r))) ∧
  doc_head after = filter (λ node, node ∉ elements) (doc_head (document later)) ∧
  (∀ node, node ∈ elements → node ∉ doc_head after) ∧
  (∀ node, node ∉ elements →
           (node ∈ doc_head after ↔ node ∈ doc_head (document later))) ∧
  doc_nodes after = doc_nodes (document later) ∧
  Forall (λ op, ∃ node, op = OpRemoveChild node ∧ node ∈ elements)
    (journal (run_cleanup (result r).2 later)).
Proof.
  intros r elements after. subst elements after.
  pose proof (apply_records prev next w) as Hrec. fold r in Hrec.
  rewrite Hrec. cbn [recorded run_cleanup].
  split; [reflexivity |]. split; [reflexivity |].
  split.
  { intros node Hin. apply apply_attached. fold r. by rewrite Hrec. }
  rewrite head_cleanup.
  split; [reflexivity |]. split; [| split; [| split]].
  - intros node Hin [Hnot _]%list_elem_of_filter. contradiction.
  - intros node Hout. rewrite list_elem_of_filter. tauto.
  - apply (nodes_cleanup _ later).
  - apply journal_cleanup.
Qed.

(** C10.  The cleanup closure leaves the document title, the attributes of
    the root element and the attributes of the body element as they are, in
    whatever state it is invoked; it changes no element either, and the
    aggregate is out of its reach.  So after an apply call and its teardown
    the title and the root and body attributes are the ones the apply call
    left, not the ones before it: with the title set from [Home] to [About]
    and [lang] set on the root, teardown keeps both. *)
Theorem cleanup_keeps_title_and_attributes
    (prev next : gmap string Value) (elements : list nat) (w later : World) :
  let past := world (cleanup elements later) in
  let r := apply prev next w in
  let torn := world (run_cleanup (result r).2 (world r)) in
  doc_title (document past) = doc_title (document later) ∧
  doc_documentElement (document past) = doc_documentElement (document later) ∧
  doc_body (document past) = doc_body (document later) ∧
  doc_nodes (document past) = doc_nodes (document later) ∧
  serverHeadmasterData past = serverHeadmasterData later ∧
  doc_title (document torn) = doc_title (document (world r)) ∧
  doc_documentElement (document torn) = doc_documentElement (document (world r)) ∧
  doc_body (document torn) = doc_body (document (world r)) ∧
  (let before := mkWorld ∅ (mkDocument "Home" ∅ ∅ [] []) in
   let D : gmap string Value :=
     {[ "title" := VString "About";
        "htmlAttributes" := VObject 1 [("lang", AString "fr")];
        "meta" := VArray 2 [[("name", AString "description")]] ]} in
   let r := apply ∅ D before in
   let torn := document (world (run_cleanup (result r).2 (world r))) in
   doc_title torn = "About" ∧ doc_documentElement torn !! "lang" = Some "fr" ∧
   doc_head (document (world r)) = [0] ∧ doc_head torn = []).
Proof.
  intros past r torn. subst past torn.
  pose proof (keeps_cleanup elements later) as Hpast.
  pose proof (nodes_cleanup elements later) as Hnodes.
  pose proof (apply_records prev next w) as Hrec. fold r in Hrec.
  rewrite Hrec. cbn [run_cleanup].
  pose proof (keeps_cleanup (appended (journal r)) (world r)) as Htorn.
  unfold surroundings in Hpast, Htorn.
  injection Hpast as Hd Ht Hr Hb. injection Htorn as _ Ht' Hr' Hb'.
  repeat (split; [assumption |]).
  vm_compute. repeat split.
Qed.

(** *** The element helper *)

Lemma on_document_id w : on_document (λ d, d) w = w.
Proof. by destruct w. Qed.

Lemma on_document_compose f g w :
  on_document f (on_document g w) = on_document (f ∘ g) w.
Proof. reflexivity. Qed.

Lemma list_alter_twice {A} (f g : A → A) (i : nat) (l : list A) :
  alter f i (alter g i l) = alter (f ∘ g) i l.
Proof.
  revert i. induction l as [|x l IH]; intros [|i]; simpl; try reflexivity.
  f_equal. apply IH.
Qed.

Lemma alter_node_twice f g node d :
  alter_node f node (alter_node g node d) = alter_node (f ∘ g) node d.
Proof. unfold alter_node. simpl. by rewrite list_alter_twice. Qed.

Lemma alter_node_id node d : alter_node (λ e, e) node d = d.
Proof. destruct d. unfold alter_node. simpl. by rewrite list_alter_id. Qed.

Lemma world_sync (attrs : Attributes) (element : nat) (w : World) :
  world (forEach attrs (λ '(key, value),
           match value with
           | AUndefined => removeAttribute element key
           | _ => setAttribute element key (toString value)
           end) w) =
  on_document (alter_node (λ e, fold_left sync_attribute attrs e) element) w.
Proof.
  revert w. induction attrs as [|[key value] attrs IH]; intros w.
  - simpl. unfold on_document. rewrite alter_node_id. by destruct w.
  - rewrite world_forEach_cons, IH.
    assert (world (match value with
                   | AUndefined => removeAttribute element key
                   | _ => setAttribute element key (toString value)
                   end w) =
            on_document (alter_node (λ e, sync_attribute e (key, value)) element) w)
      as -> by (by destruct value).
    rewrite on_document_compose. unfold on_document, compose.
    by rewrite alter_node_twice.
Qed.

Lemma run_createOrUpdateElement tag attrs html w :
  let d := document w in
  let found := snd <$> list_find (λ node, matches_marker d tag node) (doc_head d) in
  result (createOrUpdateElement tag attrs html w) =
    default (length (doc_nodes d)) found ∧
  world (createOrUpdateElement tag attrs html w) =
    on_document
      (λ d, alter_node (refresh attrs html) (default (length (doc_nodes d)) found)
              match found with Some _ => d | None => add_node tag d end) w.
Proof.
  intros d found. unfold createOrUpdateElement.
  rewrite !result_bind, !world_bind, world_sync.
  change (result (head_querySelector tag w)) with found.
  change (world (head_querySelector tag w)) with w.
  assert (result (match found with
                  | Some e => mret e
                  | None => createElement tag
                  end w) = default (length (doc_nodes d)) found) as ->
    by (by destruct found).
  assert (world (match found with
                 | Some e => mret e
                 | None => createElement tag
                 end w) =
          on_document (λ d, match found with Some _ => d | None => add_node tag d end) w)
    as ->.
  { destruct found; [by rewrite on_document_id | reflexivity]. }
  split; [reflexivity |].
  set (node := default (length (doc_nodes d)) found).
  destruct html as [h|].
  - unfold set_innerHTML, setAttribute, update_document, world. cbn [fst snd].
    unfold on_document. cbn [serverHeadmasterData document].
    by rewrite !alter_node_twice.
  - unfold setAttribute, update_document, world. cbn [fst snd].
    unfold on_document. cbn [serverHeadmasterData document].
    by rewrite !alter_node_twice.
Qed.

Lemma sync_tagName attrs e : tagName (fold_left sync_attribute attrs e) = tagName e.
Proof.
  revert e. induction attrs as [|[k v] attrs IH]; intros e; [reflexivity |].
  cbn [fold_left]. rewrite IH. by destruct v.
Qed.

Lemma refresh_tagName attrs html e : tagName (refresh attrs html e) = tagName e.
Proof. unfold refresh. destruct html; cbn [tagName]; by rewrite sync_tagName. Qed.

Lemma sync_marked attrs e :
  (marker, AUndefined) ∉ attrs →
  is_Some (attributes e !! marker) →
  is_Some (attributes (fold_left sync_attribute attrs e) !! marker).
Proof.
  revert e. induction attrs as [|[k v] attrs IH]; intros e Hout He; [done |].
  apply not_elem_of_cons in Hout as [Hne Hout].
  cbn [fold_left]. apply IH; [done |].
  unfold sync_attribute. cbn [fst snd].
  destruct v; cbn [attributes].
  - rewrite lookup_delete_ne; [done | congruence].
  - rewrite lookup_insert. case_decide; [by eexists | done].
  - rewrite lookup_insert. case_decide; [by eexists | done].
Qed.

Lemma refresh_marked attrs html e :
  (marker, AUndefined) ∉ attrs →
  is_Some (attributes (refresh attrs html e) !! marker).
Proof.
  intros Hout. unfold refresh.
  assert (is_Some (attributes (fold_left sync_attribute attrs
            (mkElement (tagName e) (<[marker := EmptyString]> (attributes e))
               (innerHTML e))) !! marker)) as H.
  { apply sync_marked; [done |]. cbn [attributes].
    rewrite lookup_insert_eq. by eexists. }
  by destruct html.
Qed.


Lemma find_none_iff (d : Document) (tag : string) :
  list_find (λ node, matches_marker d tag node) (doc_head d) = None ↔
  ∀ other, other ∈ doc_head d → ¬ matches_marker d tag other.
Proof. rewrite list_find_None, Forall_forall. reflexivity. Qed.

Lemma find_sole (d : Document) (tag : string) (node : nat) :
  sole_match d tag node →
  snd <$> list_find (λ n, matches_marker d tag n) (doc_head d) = Some node.
Proof.
  intros (Hin & Hm & Hsole).
  destruct (list_find _ _) as [[i x]|] eqn:Hfind.
  - apply list_find_Some in Hfind as (Hx & HPx & _).
    simpl. f_equal. destruct (decide (x = node)) as [| Hne]; [done |].
    exfalso. apply (Hsole x); [| done | done].
    apply list_elem_of_lookup. eauto.
  - pose proof (proj1 (find_none_iff d tag) Hfind node Hin) as Hnot.
    by destruct Hnot.
Qed.

Lemma document_place tag elements attrs w :
  let d := document w in
  let found := snd <$> list_find (λ node, matches_marker d tag node) (doc_head d) in
  let node := default (length (doc_nodes d)) found in
  result (place tag elements attrs w) = elements ++ [node] ∧
  document (world (place tag elements attrs w)) =
    with_head (λ h, filter (λ n, n ≠ node) h ++ [node])
      (alter_node (refresh attrs None) node
         match found with Some _ => d | None => add_node tag d end).
Proof.
  intros d found node. unfold place.
  rewrite result_bind, !world_bind.
  destruct (run_createOrUpdateElement tag attrs None w) as [-> ->].
  split; reflexivity.
Qed.

Lemma matches_after_place (d0 : Document) tag attrs node other :
  let d' := with_head (λ h, filter (λ n, n ≠ node) h ++ [node])
              (alter_node (refresh attrs None) node d0) in
  other ≠ node →
  matches_marker d' tag other = matches_marker d0 tag other.
Proof.
  intros d' Hne. unfold matches_marker. subst d'. cbn [doc_nodes with_head alter_node].
  by rewrite list_lookup_alter_ne.
Qed.

Lemma place_keeps_sole tag attrs node (d0 : Document) :
  let d' := with_head (λ h, filter (λ n, n ≠ node) h ++ [node])
              (alter_node (refresh attrs None) node d0) in
  (marker, AUndefined) ∉ attrs →
  (∃ e, doc_nodes d0 !! node = Some e ∧ tagName e = tag) →
  (∀ other, other ∈ doc_head d0 → other ≠ node → ¬ matches_marker d0 tag other) →
  sole_match d' tag node.
Proof.
  intros d' Hout (e & He & Htag) Hothers. split; [| split].
  - subst d'. cbn [doc_head with_head alter_node].
    apply elem_of_app. right. by apply list_elem_of_singleton.
  - unfold matches_marker. subst d'. cbn [doc_nodes with_head alter_node].
    rewrite list_lookup_alter_eq, He. cbn [fmap option_fmap option_map].
    rewrite refresh_tagName, Htag, String.eqb_refl.
    rewrite bool_decide_eq_true_2 by by apply refresh_marked.
    exact I.
  - intros other Hin Hne. subst d'.
    rewrite (matches_after_place d0 tag attrs node other Hne).
    apply Hothers; [| done].
    cbn [doc_head with_head alter_node] in Hin.
    apply elem_of_app in Hin as [Hin | Hin%list_elem_of_singleton]; [| done].
    by apply list_elem_of_filter in Hin as [_ Hin].
Qed.

Lemma matches_marker_node (d : Document) tag node :
  matches_marker d tag node → ∃ e, doc_nodes d !! node = Some e ∧ tagName e = tag.
Proof.
  unfold matches_marker. destruct (doc_nodes d !! node) as [e|]; [| done].
  intros [Htag _]%andb_prop_elim. exists e. split; [done |].
  apply String.eqb_eq. by apply Is_true_true.
Qed.

Lemma matches_add_node (d : Document) tag other :
  other ≠ length (doc_nodes d) →
  matches_marker (add_node tag d) tag other = matches_marker d tag other.
Proof.
  intros Hne. unfold matches_marker, add_node. cbn [doc_nodes].
  destruct (decide (other < length (doc_nodes d))) as [Hlt | Hge].
  - by rewrite lookup_app_l.
  - rewrite !(proj2 (lookup_ge_None _ _)); [done | lia |].
    rewrite length_app. simpl. lia.
Qed.

Lemma place_sole tag elements attrs w node :
  sole_match (document w) tag node → (marker, AUndefined) ∉ attrs →
  result (place tag elements attrs w) = elements ++ [node] ∧
  sole_match (document (world (place tag elements attrs w))) tag node.
Proof.
  intros Hsole Hout.
  destruct (document_place tag elements attrs w) as [-> ->].
  rewrite (find_sole _ _ _ Hsole). cbn [default].
  split; [reflexivity |].
  destruct Hsole as (_ & Hm & Hothers).
  apply place_keeps_sole; [done | by apply matches_marker_node | done].
Qed.

Lemma place_fresh tag elements attrs w :
  (∀ other, other ∈ doc_head (document w) →
            ¬ matches_marker (document w) tag other) →
  (marker, AUndefined) ∉ attrs →
  result (place tag elements attrs w) =
    elements ++ [length (doc_nodes (document w))] ∧
  sole_match (document (world (place tag elements attrs w))) tag
    (length (doc_nodes (document w))).
Proof.
  intros Hnone Hout.
  destruct (document_place tag elements attrs w) as [-> ->].
  rewrite (proj2 (find_none_iff _ _) Hnone). cbn [fmap option_fmap option_map default].
  split; [reflexivity |].
  apply place_keeps_sole; [done | |].
  - eexists. split; [apply list_lookup_middle; reflexivity | reflexivity].
  - intros other Hin Hne. rewrite matches_add_node by done. by apply Hnone.
Qed.

Lemma places_sole tag items elements w node :
  sole_match (document w) tag node →
  (∀ attrs, attrs ∈ items → (marker, AUndefined) ∉ attrs) →
  result (forEach_with items (place tag) elements w) =
  elements ++ replicate (length items) node.
Proof.
  revert elements w. induction items as [|attrs items IH];
    intros elements w Hsole Hitems.
  - simpl. by rewrite app_nil_r.
  - rewrite result_forEach_with_cons.
    destruct (place_sole tag elements attrs w node Hsole) as [Hres Hsole'].
    { apply Hitems. by left. }
    rewrite IH; [| done | intros a Ha; apply Hitems; by right].
    rewrite Hres. cbn [length replicate]. by rewrite <- app_assoc.
Qed.

Lemma places_fresh tag items elements w :
  (∀ other, other ∈ doc_head (document w) →
            ¬ matches_marker (document w) tag other) →
  (∀ attrs, attrs ∈ items → (marker, AUndefined) ∉ attrs) →
  result (forEach_with items (place tag) elements w) =
  elements ++ replicate (length items) (length (doc_nodes (document w))).
Proof.
  intros Hnone Hitems. destruct items as [|attrs items].
  - simpl. by rewrite app_nil_r.
  - rewrite result_forEach_with_cons.
    destruct (place_fresh tag elements attrs w Hnone) as [Hres Hsole].
    { apply Hitems. by left. }
    rewrite (places_sole tag items _ _ _ Hsole);
      [| intros a Ha; apply Hitems; by right].
    rewrite Hres. cbn [length replicate]. by rewrite <- app_assoc.
Qed.



(** ** Attribute values in the two modes *)




Lemma sync_other attrs e key :
  key ∉ attrs.*1 →
  attributes (fold_left sync_attribute attrs e) !! key = attributes e !! key.
Proof.
  revert e. induction attrs as [|[k v] attrs IH]; intros e Hk; [reflexivity |].
  rewrite fmap_cons, not_elem_of_cons in Hk. destruct Hk as [Hne Hk].
  cbn [fold_left]. rewrite IH by done.
  unfold sync_attribute. cbn [fst snd].
  destruct v; cbn [attributes].
  - by rewrite lookup_delete_ne.
  - by rewrite lookup_insert_ne.
  - by rewrite lookup_insert_ne.
Qed.

Lemma sync_undefined attrs e key :
  NoDup attrs.*1 → (key, AUndefined) ∈ attrs →
  attributes (fold_left sync_attribute attrs e) !! key = None.
Proof.
  revert e. induction attrs as [|[k v] attrs IH]; intros e Hnd Hin.
  { by apply elem_of_nil in Hin. }
  rewrite fmap_cons in Hnd. apply NoDup_cons in Hnd as [Hk Hnd].
  cbn [fold_left]. apply elem_of_cons in Hin as [[= -> <-] | Hin].
  - rewrite sync_other by done. apply lookup_delete_eq.
  - by apply IH.
Qed.




(** * Further properties of the module *)

(** ** The aggregate under several merges *)

Lemma world_merge prev D w :
  world (merge prev D w) = mkWorld (spread (serverHeadmasterData w) D) (document w).
Proof. reflexivity. Qed.

(** X1.  Merges compose: merging [A] and then [B] leaves the world that one
    merge of [{ ...A, ...B }] leaves; merging the same Descriptor twice is
    merging it once; merging the empty Descriptor changes nothing. *)
Theorem merge_composes (prev : gmap string Value) (A B : gmap string Value)
    (w : World) :
  world (merge prev B (world (merge prev A w))) = world (merge prev (spread A B) w) ∧
  world (merge prev A (world (merge prev A w))) = world (merge prev A w) ∧
  world (merge prev ∅ w) = w.
Proof.
  rewrite !world_merge. cbn [serverHeadmasterData document]. unfold spread.
  split; [| split].
  - by rewrite (assoc_L (∪)).
  - by rewrite (assoc_L (∪)), (idemp_L (∪)).
  - rewrite (left_id_L ∅ (∪)). by destruct w.
Qed.

Lemma run_merge_all prev Ds w :
  merge_all prev Ds w =
  ((), mkWorld (fold_left spread Ds (serverHeadmasterData w)) (document w), []).
Proof.
  unfold merge_all. revert w. induction Ds as [|D Ds IH]; intros w.
  - by destruct w.
  - cbn [forEach fold_left]. rewrite run_bind, IH.
    rewrite world_bind, world_merge. reflexivity.
Qed.

Lemma fold_spread_absent (Ds : list (gmap string Value)) agg key :
  (∀ D, D ∈ Ds → D !! key = None) →
  fold_left spread Ds agg !! key = agg !! key.
Proof.
  revert agg. induction Ds as [|D Ds IH]; intros agg HDs; [reflexivity |].
  cbn [fold_left]. rewrite IH by (intros D' HD'; apply HDs; by right).
  rewrite spread_lookup, (HDs D) by by left. reflexivity.
Qed.

Lemma fold_spread_keeps (Ds : list (gmap string Value)) agg key :
  is_Some (agg !! key) → is_Some (fold_left spread Ds agg !! key).
Proof.
  revert agg. induction Ds as [|D Ds IH]; intros agg Hk; [done |].
  cbn [fold_left]. apply IH. rewrite spread_lookup.
  destruct (D !! key); [by eexists | done].
Qed.

Lemma fold_spread_app (Ds Ds' : list (gmap string Value)) agg :
  fold_left spread (Ds ++ Ds') agg = fold_left spread Ds' (fold_left spread Ds agg).
Proof. apply fold_left_app. Qed.

(** X2.  Over a server pass the aggregate only accumulates: it ends as the
    successive spread of the Descriptors over what it held, nothing else in
    the world changes, a property it held or that some Descriptor of the
    pass holds is still there at the end, and for each property the last
    Descriptor that has it decides the value, also when that value is
    undefined.  A property no Descriptor has keeps the aggregate's value:
    nothing resets the aggregate between passes. *)
Theorem merges_accumulate (prev : gmap string Value)
    (Ds : list (gmap string Value)) (w : World) :
  let r := merge_all prev Ds w in
  let agg' := serverHeadmasterData (world r) in
  agg' = fold_left spread Ds (serverHeadmasterData w) ∧
  document (world r) = document w ∧
  journal r = [] ∧
  (∀ key, is_Some (serverHeadmasterData w !! key) → is_Some (agg' !! key)) ∧
  (∀ D key, D ∈ Ds → is_Some (D !! key) → is_Some (agg' !! key)) ∧
  (∀ before D after key v,
     Ds = before ++ D :: after → D !! key = Some v →
     (∀ D', D' ∈ after → D' !! key = None) →
     agg' !! key = Some v) ∧
  (∀ key, (∀ D, D ∈ Ds → D !! key = None) →
          agg' !! key = serverHeadmasterData w !! key).
Proof.
  intros r agg'. subst r agg'. rewrite run_merge_all.
  unfold world, journal. cbn [fst snd serverHeadmasterData document].
  split; [reflexivity |]. split; [reflexivity |]. split; [reflexivity |].
  split; [intros key; apply fold_spread_keeps |].
  split; [| split].
  - intros D key [before [after ->]]%list_elem_of_split [v Hv].
    rewrite fold_spread_app. cbn [fold_left]. apply fold_spread_keeps.
    rewrite spread_lookup, Hv. by eexists.
  - intros before D after key v -> Hv Hafter.
    rewrite fold_spread_app. cbn [fold_left].
    rewrite fold_spread_absent by done. by rewrite spread_lookup, Hv.
  - intros key. apply fold_spread_absent.
Qed.

(** Three components on one page: the title of the last one that declares a
    title is the aggregate's, and the first one's [meta] is still there. *)
Lemma merges_accumulate_witness :
  let layout : gmap string Value :=
    {[ "title" := VString "Site"; "meta" := VArray 1 [[("name", AString "viewport")]] ]} in
  let page : gmap string Value := {[ "title" := VString "About" ]} in
  let widget : gmap string Value := {[ "link" := VArray 2 [[("rel", AString "icon")]] ]} in
  let w := mkWorld ∅ (mkDocument EmptyString ∅ ∅ [] []) in
  let agg' := serverHeadmasterData (world (merge_all ∅ [layout; page; widget] w)) in
  agg' !! "title" = Some (VString "About") ∧ is_Some (agg' !! "meta").
Proof.
  intros layout page widget w agg'.
  destruct (merges_accumulate ∅ [layout; page; widget] w)
    as (_ & _ & _ & _ & Hhas & Hlast & _).
  split.
  - apply (Hlast [layout] page [widget] "title" (VString "About"));
      [reflexivity | reflexivity |].
    intros D' ->%list_elem_of_singleton. reflexivity.
  - apply (Hhas layout "meta"); [by left |]. by eexists.
Defined.

(** ** What the serializer reads *)

Lemma spec_title_forget (v : Value) : spec_title (forget_identity v) = spec_title v.
Proof. by destruct v. Qed.

Lemma spec_kind_get data data' tagName :
  forget_identity (get data tagName) = forget_identity (get data' tagName) →
  spec_kind data tagName = spec_kind data' tagName.
Proof.
  unfold spec_kind.
  destruct (get data tagName), (get data' tagName); simpl; congruence.
Qed.

Lemma spec_render_ext data data' :
  spec_title (get data "title") = spec_title (get data' "title") →
  (∀ tagName, tagName ∈ VALID_TAG_NAMES →
              spec_kind data tagName = spec_kind data' tagName) →
  spec_render data = spec_render data'.
Proof.
  intros Htitle Hkinds. unfold spec_render. rewrite Htitle. f_equal. f_equal.
  apply map_ext_in. intros tagName Hin. apply Hkinds. by apply list_elem_of_In.
Qed.

(** X3.  The serializer reads the title and the six tag kinds of the
    aggregate and nothing else, and of those only the contents: two
    aggregates that agree on these seven properties up to the identity of
    the objects render to the same string, whatever [htmlAttributes],
    [bodyAttributes] or other properties they hold and whatever the document
    is. *)
Theorem render_reads_title_and_tag_kinds
    (data data' : gmap string Value) (d d' : Document) :
  (∀ key, key ∈ "title" :: VALID_TAG_NAMES →
          forget_identity (get data key) = forget_identity (get data' key)) →
  result (renderServerHeadmaster true (mkWorld data d)) =
  result (renderServerHeadmaster true (mkWorld data' d')).
Proof.
  intros Hsame. rewrite !run_renderServerHeadmaster.
  unfold result. cbn [fst serverHeadmasterData]. f_equal.
  apply spec_render_ext.
  - rewrite <- (spec_title_forget (get data "title")),
      <- (spec_title_forget (get data' "title")).
    f_equal. apply Hsame. by left.
  - intros tagName Hin. apply spec_kind_get, Hsame. by right.
Qed.

(** Root and body attributes and a stray property make no difference to the
    output, nor does a rebuilt [meta] array. *)
Lemma render_reads_title_and_tag_kinds_witness :
  let data : gmap string Value :=
    {[ "title" := VString "T";
       "meta" := VArray 1 [[("name", AString "d")]];
       "htmlAttributes" := VObject 2 [("lang", AString "en")];
       "bodyAttributes" := VObject 3 [("class", AString "dark")];
       "children" := VNull ]} in
  let data' : gmap string Value :=
    {[ "title" := VString "T"; "meta" := VArray 7 [[("name", AString "d")]] ]} in
  let d := mkDocument EmptyString ∅ ∅ [] [] in
  result (renderServerHeadmaster true (mkWorld data d)) =
  result (renderServerHeadmaster true (mkWorld data' d)).
Proof.
  intros data data' d.
  apply (render_reads_title_and_tag_kinds data data' d d).
  intros key Hkey. unfold VALID_TAG_NAMES in Hkey.
  repeat (apply elem_of_cons in Hkey as [-> | Hkey]; [reflexivity |]).
  by apply elem_of_nil in Hkey.
Defined.

Lemma append_empty_iff (s t : string) :
  s +:+ t = EmptyString ↔ s = EmptyString ∧ t = EmptyString.
Proof.
  split; [| by intros [-> ->]].
  destruct s; [intros H; split; [reflexivity | exact H] | discriminate].
Qed.

Lemma concat_empty_iff (l : list string) :
  String.concat EmptyString l = EmptyString ↔ Forall (λ s, s = EmptyString) l.
Proof.
  induction l as [|x l IH]; [by split; [constructor |] |].
  rewrite concat_empty_cons, append_empty_iff, Forall_cons, IH. reflexivity.
Qed.

Lemma spec_title_empty_iff (v : Value) :
  spec_title v = EmptyString ↔ truthy v = false.
Proof. destruct v as [| | [|a s] | |]; simpl; split; done. Qed.

Lemma spec_kind_empty_iff data tagName :
  spec_kind data tagName = EmptyString ↔
  match get data tagName with
  | VObject _ _ => False
  | VArray _ items => items = []
  | _ => True
  end.
Proof.
  unfold spec_kind. destruct (get data tagName) as [| | s | r a | r items]; try done.
  destruct items as [|a items]; [done |].
  cbn [map]. rewrite concat_empty_cons, append_empty_iff. split; [| done].
  intros [H _]. discriminate H.
Qed.

(** X4.  The serializer returns the empty string exactly when there is
    nothing to render: the title is falsy (missing, undefined, null or the
    empty string) and no tag kind holds an attribute set or a non-empty
    sequence.  An entry always leaves text, even one without attributes. *)
Theorem render_empty_iff (w : World) :
  result (renderServerHeadmaster true w) = Returned EmptyString ↔
  truthy (get (serverHeadmasterData w) "title") = false ∧
  ∀ tagName, tagName ∈ VALID_TAG_NAMES →
    match get (serverHeadmasterData w) tagName with
    | VObject _ _ => False
    | VArray _ items => items = []
    | _ => True
    end.
Proof.
  rewrite run_renderServerHeadmaster. unfold result. cbn [fst].
  split.
  - intros [= H]. unfold spec_render in H.
    apply append_empty_iff in H as [Ht Hk].
    split; [by apply spec_title_empty_iff |].
    intros tagName Hin. apply spec_kind_empty_iff.
    apply concat_empty_iff in Hk. rewrite Forall_forall in Hk.
    apply Hk. by apply (list_elem_of_fmap_2 (spec_kind (serverHeadmasterData w))) in Hin.
  - intros [Ht Hk]. f_equal. unfold spec_render.
    apply append_empty_iff. split; [by apply spec_title_empty_iff |].
    apply concat_empty_iff, Forall_forall.
    intros s (tagName & -> & Hin)%list_elem_of_fmap.
    apply spec_kind_empty_iff, Hk, Hin.
Qed.

Lemma get_insert (data : gmap string Value) key key' v :
  get (<[key := v]> data) key' = if decide (key = key') then v else get data key'.
Proof. unfold get. rewrite lookup_insert. by case_decide. Qed.

(** X5.  A single attribute set renders as a sequence of that one entry
    does: replacing the object held by a property with the one-entry array
    of it leaves the serializer's output unchanged, for any property, so a
    kind declared as an object (such as [base]) and one declared as an array
    are rendered by the same rule. *)
Theorem render_object_as_singleton (data : gmap string Value) (d : Document)
    (key : string) (r r' : nat) (attrs : Attributes) :
  result (renderServerHeadmaster true
            (mkWorld (<[key := VObject r attrs]> data) d)) =
  result (renderServerHeadmaster true
            (mkWorld (<[key := VArray r' [attrs]]> data) d)).
Proof.
  rewrite !run_renderServerHeadmaster. unfold result. cbn [fst serverHeadmasterData].
  f_equal. apply spec_render_ext.
  - rewrite !get_insert. by case_decide.
  - intros tagName _. unfold spec_kind. rewrite !get_insert. by case_decide.
Qed.

(** ** The element helper on the document *)

Lemma nodes_createOrUpdateElement tag attrs html w node :
  node ≠ result (createOrUpdateElement tag attrs html w) →
  doc_nodes (document (world (createOrUpdateElement tag attrs html w))) !! node =
  doc_nodes (document w) !! node.
Proof.
  destruct (run_createOrUpdateElement tag attrs html w) as [-> ->].
  intros Hne. cbn [on_document document alter_node doc_nodes].
  rewrite list_lookup_alter_ne by done.
  destruct (snd <$> list_find _ _) as [found|]; cbn [default] in *; [reflexivity |].
  cbn [add_node doc_nodes].
  destruct (decide (node < length (doc_nodes (document w)))) as [Hlt | Hge].
  - by rewrite lookup_app_l.
  - rewrite !(proj2 (lookup_ge_None _ _)); [done | lia |].
    rewrite length_app. simpl. lia.
Qed.

Lemma length_createOrUpdateElement tag attrs html w :
  let d := document w in
  let r := createOrUpdateElement tag attrs html w in
  length (doc_nodes (document (world r))) =
  if decide (result r = length (doc_nodes d)) then S (length (doc_nodes d))
  else length (doc_nodes d).
Proof.
  intros d r. subst d r.
  destruct (run_createOrUpdateElement tag attrs html w) as [-> ->].
  cbn [on_document document alter_node doc_nodes]. rewrite length_alter.
  destruct (list_find _ _) as [[i found]|] eqn:Hfind; cbn.
  - apply list_find_Some in Hfind as (_ & Hm & _).
    apply matches_marker_node in Hm as (e & He & _).
    apply lookup_lt_Some in He. case_decide; [lia | reflexivity].
  - rewrite length_app. cbn. case_decide; [lia | done].
Qed.

(** X6.  [createOrUpdateElement] neither attaches nor detaches anything:
    the children of the head are the same afterwards, so an element it
    creates stays outside the tree until the caller appends it.  It leaves
    the title, the root and body attributes and the aggregate alone, changes
    no element but the one it returns, and the store of elements grows by
    one exactly when the returned element is a new one. *)
Theorem createOrUpdateElement_touches_one_element
    (tag : string) (attrs : Attributes) (html : option string) (w : World) :
  let d := document w in
  let r := createOrUpdateElement tag attrs html w in
  let d' := document (world r) in
  doc_head d' = doc_head d ∧
  surroundings (world r) = surroundings w ∧
  (∀ node, node ≠ result r → doc_nodes d' !! node = doc_nodes d !! node) ∧
  (result r ∈ doc_head d ∧ length (doc_nodes d') = length (doc_nodes d) ∨
   result r = length (doc_nodes d) ∧
   length (doc_nodes d') = S (length (doc_nodes d))) ∧
  ((∀ node, node ∈ doc_head d → node < length (doc_nodes d)) →
   result r = length (doc_nodes d) → result r ∉ doc_head d').
Proof.
  intros d r d'. subst d r d'.
  pose proof (keeps_createOrUpdateElement _ tag attrs html head_blind w) as Hhead.
  cbn [compose] in Hhead. rewrite Hhead.
  split; [reflexivity |].
  split; [apply keeps_createOrUpdateElement, surroundings_blind |].
  split; [intros node; apply nodes_createOrUpdateElement |].
  split.
  - rewrite length_createOrUpdateElement.
    destruct (run_createOrUpdateElement tag attrs html w) as [Hres _].
    cbn zeta in Hres. rewrite Hres.
    destruct (list_find _ _) as [[i found]|] eqn:Hfind; cbn.
    + left. apply list_find_Some in Hfind as (Hi & Hm & _).
      split; [apply list_elem_of_lookup; eauto |].
      apply matches_marker_node in Hm as (e & He & _).
      apply lookup_lt_Some in He. case_decide; [lia | reflexivity].
    + right. by rewrite decide_True.
  - intros Hwf Hres Hin. apply Hwf in Hin. lia.
Qed.

Lemma sync_set attrs e key value :
  NoDup attrs.*1 → (key, value) ∈ attrs → value ≠ AUndefined →
  attributes (fold_left sync_attribute attrs e) !! key = Some (toString value).
Proof.
  revert e. induction attrs as [|[k v] attrs IH]; intros e Hnd Hin Hv.
  { by apply elem_of_nil in Hin. }
  rewrite fmap_cons in Hnd. apply NoDup_cons in Hnd as [Hk Hnd].
  cbn [fold_left]. apply elem_of_cons in Hin as [[= -> ->] | Hin].
  - rewrite sync_other by done. unfold sync_attribute. cbn [fst snd].
    destruct v; [done | |]; cbn [attributes]; apply lookup_insert_eq.
  - by apply IH.
Qed.

Lemma sync_innerHTML attrs e : innerHTML (fold_left sync_attribute attrs e) = innerHTML e.
Proof.
  revert e. induction attrs as [|[k v] attrs IH]; intros e; [reflexivity |].
  cbn [fold_left]. rewrite IH. by destruct v.
Qed.

Lemma refresh_attributes attrs html e :
  attributes (refresh attrs html e) =
  attributes (fold_left sync_attribute attrs
    (mkElement (tagName e) (<[marker := EmptyString]> (attributes e)) (innerHTML e))).
Proof. unfold refresh. by destruct html. Qed.

Lemma html_assignment_bind {A} (html : option string) (m : M A) (f : A → M nat) w :
  Forall (λ op, ∀ node h, op ≠ OpSetInnerHTML node h) (journal (m w)) →
  (∃ before,
     journal (f (result (m w)) (world (m w))) =
       before ++ html_assignment html (result (f (result (m w)) (world (m w)))) ∧
     Forall (λ op, ∀ node h, op ≠ OpSetInnerHTML node h) before) →
  ∃ before,
    journal ((m ≫= f) w) = before ++ html_assignment html (result ((m ≫= f) w)) ∧
    Forall (λ op, ∀ node h, op ≠ OpSetInnerHTML node h) before.
Proof.
  intros Hm (before & Hf & Hbefore). rewrite journal_bind, result_bind, Hf.
  exists (journal (m w) ++ before). split; [by rewrite app_assoc |].
  apply Forall_app. by split.
Qed.

Lemma journal_createOrUpdateElement_html tag attrs html w :
  ∃ before,
    journal (createOrUpdateElement tag attrs html w) =
      before ++
      html_assignment html (result (createOrUpdateElement tag attrs html w)) ∧
    Forall (λ op, ∀ node h, op ≠ OpSetInnerHTML node h) before.
Proof.
  unfold createOrUpdateElement.
  apply html_assignment_bind; [constructor |].
  apply html_assignment_bind.
  { destruct (result (head_querySelector tag w)); [constructor |].
    by repeat constructor. }
  apply html_assignment_bind; [by repeat constructor |].
  apply html_assignment_bind.
  { apply journals_forEach. intros [key [| b | s']]; by apply journals_update. }
  exists []. split; [| constructor].
  rewrite journal_bind, result_bind. by destruct html.
Qed.

(** X7.  The element [createOrUpdateElement] returns, for a tag name and an
    attribute set whose names have no upper-case ASCII letter and whose keys
    are distinct: its tag name is the requested one; every key of the set
    with a defined value holds the string conversion of the value, every key
    with an undefined value is absent; the marker is the empty string unless
    the set has it as a key; and every other attribute is the one the
    element had before the call.  So an element that is reused keeps all its
    earlier attributes that the new set does not name.  [innerHTML] is
    assigned, on the returned element, exactly when a markup is given. *)
Theorem createOrUpdateElement_attributes
    (tag : string) (attrs : Attributes) (html : option string) (w : World) :
  lowercase tag = tag →
  NoDup attrs.*1 →
  Forall (λ key, lowercase key = key) attrs.*1 →
  let r := createOrUpdateElement tag attrs html w in
  ∃ e0 e,
    doc_nodes (document (world r)) !! result r = Some e ∧
    (doc_nodes (document w) !! result r = Some e0 ∧ tagName e0 = tag ∨
     doc_nodes (document w) !! result r = None ∧
     e0 = mkElement tag ∅ EmptyString) ∧
    tagName e = tag ∧
    (∀ node h, OpSetInnerHTML node h ∈ journal r ↔
               node = result r ∧ html = Some h) ∧
    (∀ key value, (key, value) ∈ attrs → value ≠ AUndefined →
       attributes e !! key = Some (toString value)) ∧
    (∀ key, (key, AUndefined) ∈ attrs → attributes e !! key = None) ∧
    (marker ∉ attrs.*1 → attributes e !! marker = Some EmptyString) ∧
    (∀ key, lowercase key = key → key ∉ attrs.*1 → key ≠ marker →
       attributes e !! key = attributes e0 !! key).
Proof.
  intros _ Hnd _ r. subst r.
  destruct (journal_createOrUpdateElement_html tag attrs html w)
    as (before & Hjournal & Hbefore).
  rewrite Hjournal. clear Hjournal.
  assert (∀ node h,
    OpSetInnerHTML node h ∈
      before ++
      html_assignment html (result (createOrUpdateElement tag attrs html w)) ↔
    node = result (createOrUpdateElement tag attrs html w) ∧ html = Some h)
    as Hhtml.
  { intros node h. rewrite elem_of_app. split.
    - intros [Hin | Hin].
      + rewrite Forall_forall in Hbefore. by destruct (Hbefore _ Hin node h).
      + destruct html as [h'|]; [| by apply elem_of_nil in Hin].
        apply list_elem_of_singleton in Hin. by injection Hin as -> ->.
    - intros [-> ->]. right. by apply list_elem_of_singleton. }
  revert Hhtml.
  destruct (run_createOrUpdateElement tag attrs html w) as [Hres Hworld].
  cbn zeta in Hres, Hworld. rewrite Hres, Hworld. intros Hhtml.
  cbn [on_document document alter_node doc_nodes].
  assert (∃ e0,
    match snd <$> list_find (λ node, matches_marker (document w) tag node)
                    (doc_head (document w)) with
    | Some _ => doc_nodes (document w)
    | None => doc_nodes (add_node tag (document w))
    end !! default (length (doc_nodes (document w)))
             (snd <$> list_find (λ node, matches_marker (document w) tag node)
                        (doc_head (document w))) = Some e0 ∧
    tagName e0 = tag ∧
    (doc_nodes (document w) !! default (length (doc_nodes (document w)))
       (snd <$> list_find (λ node, matches_marker (document w) tag node)
                  (doc_head (document w))) = Some e0 ∨
     doc_nodes (document w) !! default (length (doc_nodes (document w)))
       (snd <$> list_find (λ node, matches_marker (document w) tag node)
                  (doc_head (document w))) = None ∧
     e0 = mkElement tag ∅ EmptyString)) as (e0 & He0 & Htag & Hcase).
  { destruct (list_find _ _) as [[i found]|] eqn:Hfind; cbn.
    - apply list_find_Some in Hfind as (_ & Hm & _).
      apply matches_marker_node in Hm as (e & He & Ht). exists e. auto.
    - eexists. split; [apply list_lookup_middle; reflexivity |].
      split; [reflexivity |]. right. split; [| reflexivity].
      apply lookup_ge_None. lia. }
  exists e0, (refresh attrs html e0).
  split.
  { rewrite list_lookup_alter_eq.
    destruct (snd <$> list_find _ _); cbn [doc_nodes] in *; by rewrite He0. }
  split; [destruct Hcase as [? | [? ?]]; auto |].
  split; [by rewrite refresh_tagName |].
  split; [exact Hhtml |].
  rewrite !refresh_attributes.
  split; [intros key value Hin Hv; by apply sync_set |].
  split; [intros key Hin; by apply sync_undefined |].
  split.
  - intros Hm. rewrite sync_other by done. cbn [attributes]. apply lookup_insert_eq.
  - intros key _ Hk Hne. rewrite sync_other by done. cbn [attributes].
    by rewrite lookup_insert_ne.
Qed.

(** A [meta] element left by an earlier entry is reused for an entry that
    names other attributes: [content] is replaced, [name] stays. *)
Lemma createOrUpdateElement_attributes_witness :
  let before : Element :=
    mkElement "meta"
      {[ marker := EmptyString; "name" := "description"; "content" := "old" ]}
      EmptyString in
  let w := mkWorld ∅ (mkDocument EmptyString ∅ ∅ [before] [0]) in
  let attrs : Attributes := [("property", AString "og:title"); ("content", AString "new")] in
  let r := createOrUpdateElement "meta" attrs None w in
  ∃ e, doc_nodes (document (world r)) !! result r = Some e ∧
       attributes e !! "content" = Some "new" ∧
       attributes e !! "name" = Some "description".
Proof.
  intros before w attrs r.
  assert (NoDup attrs.*1) as Hnd.
  { apply NoDup_cons. split; [| apply NoDup_singleton].
    intros Hin%list_elem_of_singleton. discriminate Hin. }
  assert (Forall (λ key, lowercase key = key) attrs.*1) as Hlow
    by (by repeat constructor).
  destruct (createOrUpdateElement_attributes "meta" attrs None w eq_refl Hnd Hlow)
    as (e0 & e & He & Hcase & _ & _ & Hset & _ & _ & Hkeep).
  exists e. split; [exact He |]. split.
  - apply (Hset "content" (AString "new")); [| done].
    apply elem_of_cons. right. by apply list_elem_of_singleton.
  - rewrite (Hkeep "name").
    + destruct Hcase as [[He0 _] | [He0 _]]; vm_compute in He0; [| discriminate He0].
      injection He0 as <-. reflexivity.
    + reflexivity.
    + intros Hin. vm_compute in Hin. apply list_elem_of_In in Hin.
      simpl in Hin. destruct Hin as [H | [H | []]]; discriminate H.
    + discriminate.
Defined.

(** ** The head under an apply call *)

Lemma elem_of_move_to_end h node n :
  n ∈ move_to_end h node ↔ n ∈ h ∨ n = node.
Proof.
  unfold move_to_end. rewrite elem_of_app, list_elem_of_filter, list_elem_of_singleton.
  destruct (decide (n = node)); tauto.
Qed.

Lemma elem_of_moves els h n :
  n ∈ fold_left move_to_end els h ↔ n ∈ h ∨ n ∈ els.
Proof.
  revert h. induction els as [|e els IH]; intros h; cbn [fold_left].
  - rewrite elem_of_nil. tauto.
  - rewrite IH, elem_of_move_to_end, elem_of_cons. tauto.
Qed.

Lemma filter_move_to_end (P : nat → Prop) `{!∀ x, Decision (P x)} h node :
  ¬ P node → filter P (move_to_end h node) = filter P h.
Proof.
  intros HP. unfold move_to_end.
  rewrite filter_app, filter_cons_False, filter_nil, app_nil_r by done.
  rewrite list_filter_filter. apply list_filter_iff.
  intros x. split; [tauto |]. intros Hx. split; [done |]. by intros ->.
Qed.

Lemma filter_moves (P : nat → Prop) `{!∀ x, Decision (P x)} els h :
  (∀ e, e ∈ els → ¬ P e) →
  filter P (fold_left move_to_end els h) = filter P h.
Proof.
  revert h. induction els as [|e els IH]; intros h Hels; [reflexivity |].
  cbn [fold_left]. rewrite IH by (intros x Hx; apply Hels; by right).
  apply filter_move_to_end, Hels. by left.
Qed.

Lemma NoDup_move_to_end h node : NoDup h → NoDup (move_to_end h node).
Proof.
  intros Hh. unfold move_to_end. apply NoDup_app.
  split; [by apply NoDup_filter |]. split; [| apply NoDup_singleton].
  intros x [Hne _]%list_elem_of_filter ->%list_elem_of_singleton. done.
Qed.

Lemma NoDup_moves els h : NoDup h → NoDup (fold_left move_to_end els h).
Proof.
  revert h. induction els as [|e els IH]; intros h Hh; [done |].
  cbn [fold_left]. by apply IH, NoDup_move_to_end.
Qed.

Lemma last_moves els h e :
  last els = Some e → last (fold_left move_to_end els h) = Some e.
Proof.
  revert h. induction els as [|x els IH]; intros h; [discriminate |].
  cbn [fold_left]. destruct els as [|y els].
  - intros [= ->]. cbn [fold_left]. unfold move_to_end. apply last_snoc.
  - intros Hlast. by apply IH.
Qed.

Lemma journal_place tag elements attrs w :
  appended (journal (place tag elements attrs w)) =
  [result (createOrUpdateElement tag attrs None w)].
Proof.
  unfold place. rewrite journal_bind, appended_app.
  rewrite appended_none by apply createOrUpdateElement_no_append.
  reflexivity.
Qed.

Lemma head_place tag elements attrs w :
  doc_head (document (world (place tag elements attrs w))) =
  fold_left move_to_end (appended (journal (place tag elements attrs w)))
    (doc_head (document w)).
Proof.
  rewrite journal_place. cbn [fold_left].
  pose proof (keeps_createOrUpdateElement _ tag attrs None head_blind w) as Hhead.
  cbn [compose] in Hhead. rewrite <- Hhead.
  unfold place. rewrite !world_bind. reflexivity.
Qed.

Lemma head_forEach_with {A} (f : list nat → A → M (list nat)) (l : list A)
    elements w :
  (∀ els x w,
     doc_head (document (world (f els x w))) =
     fold_left move_to_end (appended (journal (f els x w))) (doc_head (document w))) →
  doc_head (document (world (forEach_with l f elements w))) =
  fold_left move_to_end (appended (journal (forEach_with l f elements w)))
    (doc_head (document w)).
Proof.
  intros Hf. revert elements w. induction l as [|x l IH]; intros elements w.
  - reflexivity.
  - rewrite world_forEach_with_cons, journal_forEach_with_cons.
    by rewrite IH, appended_app, fold_left_app, Hf.
Qed.

Lemma head_apply_tag next prev elements tag w :
  doc_head (document (world (apply_tag next prev elements tag w))) =
  fold_left move_to_end
    (appended (journal (apply_tag next prev elements tag w)))
    (doc_head (document w)).
Proof.
  unfold apply_tag. destruct (strict_neq _ _); [| reflexivity].
  destruct (get next tag).
  1-3: reflexivity.
  - apply head_place.
  - apply head_forEach_with. intros. apply head_place.
Qed.

Lemma recorded_apply prev next w :
  recorded (result (apply prev next w)).2 = appended (journal (apply prev next w)).
Proof. by rewrite apply_records. Qed.

Lemma before_tags_keeps {X} (π : Document → X) prev next w :
  (∀ d t a b, π (mkDocument t a b (doc_nodes d) (doc_head d)) = π d) →
  π (document (world (apply_bodyAttributes next prev
       (world (apply_htmlAttributes next prev
          (world (apply_title next prev w))))))) = π (document w).
Proof.
  intros Hπ.
  pose proof (apply_title_keeps π next prev
    (λ d s, Hπ d s (doc_documentElement d) (doc_body d)) w) as Ht.
  pose proof (apply_htmlAttributes_keeps π next prev
    (λ d a, Hπ d (doc_title d) a (doc_body d))
    (world (apply_title next prev w))) as Hh.
  pose proof (apply_bodyAttributes_keeps π next prev
    (λ d a, Hπ d (doc_title d) (doc_documentElement d) a)
    (world (apply_htmlAttributes next prev (world (apply_title next prev w)))))
    as Hb.
  cbn [compose] in *. by rewrite Hb, Hh, Ht.
Qed.

Lemma tags_journal_apply prev next w :
  appended (journal (apply prev next w)) =
  appended (journal (forEach_with VALID_TAG_NAMES (apply_tag next prev) []
    (world (apply_bodyAttributes next prev
       (world (apply_htmlAttributes next prev
          (world (apply_title next prev w)))))))).
Proof.
  rewrite <- recorded_apply, result_apply. cbn [snd recorded].
  rewrite (result_forEach_with_appended (apply_tag next prev)); [done |].
  intros. apply result_apply_tag.
Qed.

Lemma head_apply prev next w :
  doc_head (document (world (apply prev next w))) =
  fold_left move_to_end (recorded (result (apply prev next w)).2)
    (doc_head (document w)).
Proof.
  rewrite recorded_apply, tags_journal_apply, world_apply.
  rewrite (head_forEach_with (apply_tag next prev))
    by (intros; apply head_apply_tag).
  f_equal. by apply (before_tags_keeps doc_head).
Qed.

(** X8.  An apply call never detaches a child of the head.  The head it
    leaves is the head it found with each recorded element, in the order of
    recording, moved to the end (or added there): the children afterwards
    are the children before together with the recorded elements, the
    children that are not recorded keep their relative order, a head without
    duplicates stays so, and the element recorded last is the last child. *)
Theorem apply_moves_recorded_to_end (prev next : gmap string Value) (w : World) :
  let r := apply prev next w in
  let elements := recorded (result r).2 in
  let h := doc_head (document w) in
  let h' := doc_head (document (world r)) in
  h' = fold_left move_to_end elements h ∧
  (∀ node, node ∈ h' ↔ node ∈ h ∨ node ∈ elements) ∧
  filter (λ node, node ∉ elements) h' = filter (λ node, node ∉ elements) h ∧
  (NoDup h → NoDup h') ∧
  (∀ e, last elements = Some e → last h' = Some e).
Proof.
  intros r elements h h'. subst r elements h h'. rewrite head_apply.
  split; [reflexivity |].
  split; [intros node; apply elem_of_moves |].
  split; [apply filter_moves; tauto |].
  split; [apply NoDup_moves | intros e; apply last_moves].
Qed.

(** ** The elements under an apply call *)

Lemma nodes_place tag elements attrs w node :
  node ∉ appended (journal (place tag elements attrs w)) →
  doc_nodes (document (world (place tag elements attrs w))) !! node =
  doc_nodes (document w) !! node.
Proof.
  rewrite journal_place, list_elem_of_singleton. intros Hne.
  rewrite <- (nodes_createOrUpdateElement tag attrs None w node Hne).
  unfold place. rewrite !world_bind. reflexivity.
Qed.

Lemma nodes_forEach_with {A} (f : list nat → A → M (list nat)) (l : list A)
    elements w node :
  (∀ els x w,
     node ∉ appended (journal (f els x w)) →
     doc_nodes (document (world (f els x w))) !! node =
     doc_nodes (document w) !! node) →
  node ∉ appended (journal (forEach_with l f elements w)) →
  doc_nodes (document (world (forEach_with l f elements w))) !! node =
  doc_nodes (document w) !! node.
Proof.
  intros Hf. revert elements w. induction l as [|x l IH]; intros elements w.
  - reflexivity.
  - rewrite world_forEach_with_cons, journal_forEach_with_cons, appended_app.
    rewrite not_elem_of_app. intros [H1 H2]. by rewrite IH, Hf.
Qed.

Lemma nodes_apply_tag next prev elements tag w node :
  node ∉ appended (journal (apply_tag next prev elements tag w)) →
  doc_nodes (document (world (apply_tag next prev elements tag w))) !! node =
  doc_nodes (document w) !! node.
Proof.
  unfold apply_tag. destruct (strict_neq _ _); [| reflexivity].
  destruct (get next tag).
  1-3: reflexivity.
  - apply nodes_place.
  - apply nodes_forEach_with. intros. by apply nodes_place.
Qed.

Lemma nodes_apply prev next w node :
  node ∉ recorded (result (apply prev next w)).2 →
  doc_nodes (document (world (apply prev next w))) !! node =
  doc_nodes (document w) !! node.
Proof.
  rewrite recorded_apply, tags_journal_apply, world_apply. intros Hout.
  rewrite (nodes_forEach_with (apply_tag next prev))
    by (try done; intros; by apply nodes_apply_tag).
  by rewrite (before_tags_keeps doc_nodes).
Qed.

Lemma store_createOrUpdateElement tag attrs html w node e0 :
  doc_nodes (document w) !! node = Some e0 →
  ∃ e, doc_nodes (document (world (createOrUpdateElement tag attrs html w)))
         !! node = Some e ∧ tagName e = tagName e0.
Proof.
  intros He0.
  destruct (decide (node = result (createOrUpdateElement tag attrs html w)))
    as [-> | Hne].
  - destruct (run_createOrUpdateElement tag attrs html w) as [Hres Hworld].
    cbn zeta in Hres, Hworld. rewrite Hres in He0. rewrite Hres, Hworld.
    cbn [on_document document alter_node doc_nodes].
    rewrite list_lookup_alter_eq.
    destruct (snd <$> list_find _ _); cbn [default doc_nodes add_node] in *.
    + rewrite He0. eexists. split; [reflexivity | apply refresh_tagName].
    + apply lookup_lt_Some in He0. lia.
  - exists e0. by rewrite nodes_createOrUpdateElement.
Qed.

Lemma store_place tag elements attrs w node e0 :
  doc_nodes (document w) !! node = Some e0 →
  ∃ e, doc_nodes (document (world (place tag elements attrs w))) !! node = Some e ∧
       tagName e = tagName e0.
Proof.
  intros He0.
  destruct (store_createOrUpdateElement tag attrs None w node e0 He0) as (e & He & Ht).
  exists e. split; [| done]. rewrite <- He.
  unfold place. rewrite !world_bind. reflexivity.
Qed.

Lemma store_forEach_with {A} (f : list nat → A → M (list nat)) (l : list A) :
  (∀ els x w node e0,
     doc_nodes (document w) !! node = Some e0 →
     ∃ e, doc_nodes (document (world (f els x w))) !! node = Some e ∧
          tagName e = tagName e0) →
  ∀ elements w node e0,
    doc_nodes (document w) !! node = Some e0 →
    ∃ e, doc_nodes (document (world (forEach_with l f elements w))) !! node = Some e ∧
         tagName e = tagName e0.
Proof.
  intros Hf. induction l as [|x l IH]; intros elements w node e0 He0.
  - by exists e0.
  - rewrite world_forEach_with_cons.
    destruct (Hf elements x w node e0 He0) as (e1 & He1 & Ht1).
    destruct (IH (result (f elements x w)) (world (f elements x w)) node e1 He1)
      as (e & He & Ht).
    exists e. split; [done | congruence].
Qed.

Lemma store_apply_tag next prev elements tag w node e0 :
  doc_nodes (document w) !! node = Some e0 →
  ∃ e, doc_nodes (document (world (apply_tag next prev elements tag w))) !! node
       = Some e ∧ tagName e = tagName e0.
Proof.
  intros He0. unfold apply_tag. destruct (strict_neq _ _); [| by exists e0].
  destruct (get next tag).
  1-3: by exists e0.
  - by apply store_place.
  - apply store_forEach_with; [| done]. intros. by apply store_place.
Qed.

Lemma store_apply prev next w node e0 :
  doc_nodes (document w) !! node = Some e0 →
  ∃ e, doc_nodes (document (world (apply prev next w))) !! node = Some e ∧
       tagName e = tagName e0.
Proof.
  intros He0. rewrite world_apply.
  apply (store_forEach_with (apply_tag next prev)).
  - intros. by apply store_apply_tag.
  - by rewrite (before_tags_keeps doc_nodes).
Qed.

(** X9.  An apply call changes no element but the ones it records: every
    other element of the store, in the head or not, is afterwards what it
    was.  No element is ever dropped from the store or given another tag
    name, so the store never shrinks. *)
Theorem apply_changes_recorded_elements_only
    (prev next : gmap string Value) (w : World) :
  let r := apply prev next w in
  let d := document w in
  let d' := document (world r) in
  (∀ node, node ∉ recorded (result r).2 →
           doc_nodes d' !! node = doc_nodes d !! node) ∧
  (∀ node e0, doc_nodes d !! node = Some e0 →
     ∃ e, doc_nodes d' !! node = Some e ∧ tagName e = tagName e0) ∧
  length (doc_nodes d) ≤ length (doc_nodes d').
Proof.
  intros r d d'. subst r d d'.
  split; [intros node; apply nodes_apply |].
  split; [intros node e0; apply store_apply |].
  destruct (decide (length (doc_nodes (document w)) ≤
                    length (doc_nodes (document (world (apply prev next w))))))
    as [| Hlt]; [done |].
  destruct (lookup_lt_is_Some_2 (doc_nodes (document w))
              (length (doc_nodes (document (world (apply prev next w))))))
    as [e0 He0]; [lia |].
  destruct (store_apply prev next w _ e0 He0) as (e & He & _).
  apply lookup_lt_Some in He. lia.
Qed.

(** ** Teardown, once and again *)

Lemma detach_detached (e : nat) (w : World) :
  e ∉ doc_head (document w) →
  (parentNode e ≫= λ attached : bool,
     if attached then parentNode_removeChild e else mret ()) w = ((), w, []).
Proof.
  intros He. unfold mbind, M_bind, parentNode, read_document.
  by rewrite bool_decide_eq_false_2.
Qed.

Lemma cleanup_detached elements w :
  (∀ e, e ∈ elements → e ∉ doc_head (document w)) →
  cleanup elements w = ((), w, []).
Proof.
  unfold cleanup. induction elements as [|e elements IH]; intros Hout.
  - reflexivity.
  - cbn [forEach]. unfold mbind at 1, M_bind at 1.
    rewrite detach_detached by (apply Hout; by left).
    rewrite IH by (intros x Hx; apply Hout; by right). reflexivity.
Qed.

Lemma detach_run (e : nat) (w : World) :
  (parentNode e ≫= λ attached : bool,
     if attached then parentNode_removeChild e else mret ()) w =
  ((), on_document (with_head (λ h, filter (λ n, n ≠ e) h)) w,
   if bool_decide (e ∈ doc_head (document w)) then [OpRemoveChild e] else []).
Proof.
  unfold mbind, M_bind, parentNode, read_document.
  case_bool_decide as He; [reflexivity |].
  rewrite run_ret. f_equal. f_equal.
  destruct w as [data d]. unfold on_document. cbn. f_equal.
  destruct d as [t a b nodes h]. unfold with_head. cbn. f_equal.
  symmetry. apply filter_all. intros x Hx ->. contradiction.
Qed.

Lemma journal_cleanup_cons e elements w :
  journal (cleanup (e :: elements) w) =
  (if bool_decide (e ∈ doc_head (document w)) then [OpRemoveChild e] else []) ++
  journal (cleanup elements
    (on_document (with_head (λ h, filter (λ n, n ≠ e) h)) w)).
Proof.
  unfold cleanup. cbn [forEach]. unfold mbind at 1, M_bind at 1.
  rewrite detach_run. by destruct (forEach _ _ _) as [[? ?] ?].
Qed.

Lemma journal_cleanup_exact elements w :
  (∀ node, OpRemoveChild node ∈ journal (cleanup elements w) ↔
           node ∈ elements ∧ node ∈ doc_head (document w)) ∧
  NoDup (journal (cleanup elements w)).
Proof.
  revert w. induction elements as [|e elements IH]; intros w.
  - split; [| constructor]. intros node.
    change (journal (cleanup [] w)) with (@nil DomOp).
    rewrite !elem_of_nil. tauto.
  - rewrite journal_cleanup_cons.
    destruct (IH (on_document (with_head (λ h, filter (λ n, n ≠ e) h)) w))
      as [Hiff Hnd].
    cbn [on_document document with_head doc_head] in Hiff.
    split.
    + intros node. rewrite elem_of_app, Hiff, list_elem_of_filter, elem_of_cons.
      case_bool_decide as He.
      * rewrite list_elem_of_singleton. split.
        -- intros [[= ->] | (? & ? & ?)]; auto.
        -- intros [[-> | Hin] Hh]; [by left |].
           destruct (decide (node = e)) as [-> |]; [by left | right; auto].
      * rewrite elem_of_nil. split.
        -- intros [[] | (? & ? & ?)]; auto.
        -- intros [[-> | Hin] Hh]; [contradiction |].
           right. split; [done |]. split; [| done]. intros ->. contradiction.
    + case_bool_decide as He; [| exact Hnd].
      cbn [app]. apply NoDup_cons. split; [| exact Hnd].
      intros Hin. apply Hiff in Hin as [_ [Hne _]%list_elem_of_filter]. done.
Qed.

(** X10.  The cleanup closure removes each recorded element that is a child
    of the head exactly once, however often it was recorded, and touches no
    element that is not attached.  Invoked a second time it does nothing at
    all: the journal is empty and the world unchanged.  The parent test
    makes a repeated or late teardown harmless. *)
Theorem cleanup_once_and_again (elements : list nat) (w : World) :
  let r := cleanup elements w in
  (∀ node, OpRemoveChild node ∈ journal r ↔
           node ∈ elements ∧ node ∈ doc_head (document w)) ∧
  NoDup (journal r) ∧
  cleanup elements (world r) = ((), world r, []) ∧
  ((∀ e, e ∈ elements → e ∉ doc_head (document w)) → r = ((), w, [])).
Proof.
  intros r. subst r.
  destruct (journal_cleanup_exact elements w) as [Hiff Hnd].
  split; [exact Hiff |]. split; [exact Hnd |].
  split; [| apply cleanup_detached].
  apply cleanup_detached. intros e He. rewrite head_cleanup.
  intros [Hout _]%list_elem_of_filter. contradiction.
Qed.

(** ** Apply and teardown together *)

Lemma matches_marker_marked (d : Document) tag node :
  matches_marker d tag node →
  ∃ e, doc_nodes d !! node = Some e ∧ tagName e = tag ∧
       is_Some (attributes e !! marker).
Proof.
  unfold matches_marker. destruct (doc_nodes d !! node) as [e|]; [| done].
  intros [Htag Hm]%andb_prop_elim. exists e. split; [done |]. split.
  - apply String.eqb_eq. by apply Is_true_true.
  - by apply bool_decide_unpack in Hm.
Qed.

Lemma result_createOrUpdateElement tag attrs html w :
  let d := document w in
  let res := result (createOrUpdateElement tag attrs html w) in
  res ∈ doc_head d ∧ matches_marker d tag res ∨ res = length (doc_nodes d).
Proof.
  intros d res. subst d res.
  destruct (run_createOrUpdateElement tag attrs html w) as [-> _].
  destruct (list_find _ _) as [[i found]|] eqn:Hfind; cbn; [left | by right].
  apply list_find_Some in Hfind as (Hi & Hm & _).
  split; [apply list_elem_of_lookup; eauto | done].
Qed.

Lemma document_place_helper tag elements attrs w :
  let r := createOrUpdateElement tag attrs None w in
  result (place tag elements attrs w) = elements ++ [result r] ∧
  doc_nodes (document (world (place tag elements attrs w))) =
    doc_nodes (document (world r)) ∧
  doc_head (document (world (place tag elements attrs w))) =
    move_to_end (doc_head (document w)) (result r).
Proof.
  intros r. subst r.
  pose proof (keeps_createOrUpdateElement _ tag attrs None head_blind w) as Hhead.
  cbn [compose] in Hhead. rewrite <- Hhead.
  unfold place. rewrite result_bind, !world_bind. repeat split.
Qed.

Lemma fresh_above_refl d : fresh_above d d [].
Proof.
  split; [done |]. split; [done |]. split; [| by left].
  intros e He. by apply elem_of_nil in He.
Qed.

Lemma fresh_place d0 tag elements attrs w :
  unmarked_head d0 →
  fresh_above d0 (document w) elements →
  fresh_above d0 (document (world (place tag elements attrs w)))
    (result (place tag elements attrs w)).
Proof.
  intros Hun (Hlen & Hold & Hels & Hhead).
  destruct (document_place_helper tag elements attrs w) as (Hp1 & Hp2 & Hp3).
  unfold fresh_above. rewrite Hp1, Hp2, Hp3. clear Hp1 Hp2 Hp3.
  set (r := createOrUpdateElement tag attrs None w).
  assert (length (doc_nodes d0) ≤ result r) as Hres.
  { destruct (result_createOrUpdateElement tag attrs None w) as [[Hin Hm] | Heq];
      [| fold r in Heq; lia].
    fold r in Hin, Hm.
    destruct (decide (length (doc_nodes d0) ≤ result r)) as [| Hlt]; [done |].
    apply matches_marker_marked in Hm as (e & He & _ & Hmark).
    rewrite Hold in He by lia.
    destruct (Hhead _ Hin) as [Hin0 | ?]; [| lia].
    rewrite (Hun _ _ Hin0 He) in Hmark. by destruct Hmark. }
  split; [| split; [| split]].
  - pose proof (length_createOrUpdateElement tag attrs None w) as Hl.
    cbn zeta in Hl. fold r in Hl. rewrite Hl. case_decide; lia.
  - intros node Hnode. rewrite <- Hold by done.
    apply nodes_createOrUpdateElement. fold r. lia.
  - intros e [He | ->%list_elem_of_singleton]%elem_of_app; [by apply Hels | done].
  - intros node [Hin | ->]%elem_of_move_to_end; [by apply Hhead | by right].
Qed.

Lemma fresh_forEach_with {A} d0 (f : list nat → A → M (list nat)) (l : list A) :
  (∀ els x w, fresh_above d0 (document w) els →
              fresh_above d0 (document (world (f els x w))) (result (f els x w))) →
  ∀ elements w,
    fresh_above d0 (document w) elements →
    fresh_above d0 (document (world (forEach_with l f elements w)))
      (result (forEach_with l f elements w)).
Proof.
  intros Hf. induction l as [|x l IH]; intros elements w Hfresh; [done |].
  rewrite world_forEach_with_cons, result_forEach_with_cons. by apply IH, Hf.
Qed.

Lemma fresh_apply_tag d0 next prev elements tag w :
  unmarked_head d0 →
  fresh_above d0 (document w) elements →
  fresh_above d0 (document (world (apply_tag next prev elements tag w)))
    (result (apply_tag next prev elements tag w)).
Proof.
  intros Hun Hfresh. unfold apply_tag. destruct (strict_neq _ _); [| done].
  destruct (get next tag).
  1-3: done.
  - by apply fresh_place.
  - apply fresh_forEach_with; [| done]. intros. by apply fresh_place.
Qed.

Lemma fresh_apply prev next w :
  unmarked_head (document w) →
  fresh_above (document w) (document (world (apply prev next w)))
    (recorded (result (apply prev next w)).2).
Proof.
  intros Hun. rewrite result_apply, world_apply. cbn [snd recorded].
  apply fresh_forEach_with; [intros; by apply fresh_apply_tag |].
  pose proof (before_tags_keeps doc_nodes prev next w (λ _ _ _ _, eq_refl)) as Hn.
  pose proof (before_tags_keeps doc_head prev next w (λ _ _ _ _, eq_refl)) as Hh.
  destruct (fresh_above_refl (document w)) as (H1 & H2 & H3 & H4).
  split; [by rewrite Hn |]. split; [intros; by rewrite Hn |].
  split; [done | by rewrite Hh].
Qed.

Lemma head_torn prev next w :
  let r := apply prev next w in
  doc_head (document (world (run_cleanup (result r).2 (world r)))) =
  filter (λ node, node ∉ recorded (result r).2) (doc_head (document w)).
Proof.
  intros r. subst r.
  rewrite (apply_records prev next w) at 1. cbn [run_cleanup].
  rewrite head_cleanup, <- recorded_apply, head_apply.
  apply filter_moves. tauto.
Qed.

Lemma nodes_torn prev next w :
  let r := apply prev next w in
  doc_nodes (document (world (run_cleanup (result r).2 (world r)))) =
  doc_nodes (document (world r)).
Proof.
  intros r. subst r. rewrite (apply_records prev next w) at 1.
  cbn [run_cleanup]. apply (nodes_cleanup _ (world (apply prev next w))).
Qed.

Lemma torn_unmarked prev next w :
  unmarked_head (document w) → head_in_store (document w) →
  let r := apply prev next w in
  let torn := document (world (run_cleanup (result r).2 (world r))) in
  (∀ e, e ∈ recorded (result r).2 → length (doc_nodes (document w)) ≤ e) ∧
  doc_head torn = doc_head (document w) ∧
  unmarked_head torn ∧ head_in_store torn.
Proof.
  intros Hun Hstore r torn. subst r torn.
  destruct (fresh_apply prev next w Hun) as (Hlen & Hold & Hels & _).
  assert (doc_head (document (world (run_cleanup (result (apply prev next w)).2
             (world (apply prev next w))))) = doc_head (document w)) as Hhead.
  { rewrite head_torn. apply filter_all.
    intros node Hin Hrec. apply Hels in Hrec. apply Hstore in Hin. lia. }
  split; [exact Hels |]. split; [exact Hhead |]. split.
  - intros node e. rewrite Hhead, nodes_torn. intros Hin He.
    rewrite Hold in He by by apply Hstore. by apply (Hun node).
  - intros node. rewrite Hhead, nodes_torn. intros Hin%Hstore. lia.
Qed.

(** X11.  An apply call followed by its teardown leaves in the head exactly
    the children it had before the call that the call did not record, in
    their order.  In particular, when no child of the head bore the marker
    before the call (and the children are elements of the store), every
    recorded element is one the call created, and the teardown gives back
    the head as it was, child for child, again without a marked child. *)
Theorem apply_then_teardown_restores_head
    (prev next : gmap string Value) (w : World) :
  let r := apply prev next w in
  let elements := recorded (result r).2 in
  let torn := document (world (run_cleanup (result r).2 (world r))) in
  doc_head torn = filter (λ node, node ∉ elements) (doc_head (document w)) ∧
  ((∀ e, e ∈ elements → e ∉ doc_head (document w)) →
   doc_head torn = doc_head (document w)) ∧
  (unmarked_head (document w) → head_in_store (document w) →
   (∀ e, e ∈ elements → length (doc_nodes (document w)) ≤ e) ∧
   doc_head torn = doc_head (document w) ∧
   unmarked_head torn ∧ head_in_store torn).
Proof.
  intros r elements torn. subst r elements torn.
  rewrite head_torn. split; [reflexivity |]. split.
  - intros Hout. apply filter_all. intros node Hin Hrec. by apply (Hout node).
  - intros Hun Hstore. rewrite <- head_torn. by apply torn_unmarked.
Qed.

(** A page with a stylesheet link of its own: a first update adds a [meta]
    and a [link] element, and its teardown leaves the page's own link as the
    only child again. *)
Lemma apply_then_teardown_restores_head_witness :
  let own := mkElement "link" {[ "rel" := "stylesheet" ]} EmptyString in
  let w := mkWorld ∅ (mkDocument EmptyString ∅ ∅ [own] [0]) in
  let D : gmap string Value :=
    {[ "meta" := VArray 1 [[("name", AString "description")]];
       "link" := VArray 2 [[("rel", AString "canonical")]] ]} in
  let r := apply ∅ D w in
  doc_head (document (world r)) = [0; 1; 2] ∧
  doc_head (document (world (run_cleanup (result r).2 (world r)))) = [0].
Proof.
  intros own w D r. split; [reflexivity |].
  refine (proj1 (proj2 (proj2 (proj2
    (apply_then_teardown_restores_head ∅ D w)) _ _))).
  - intros node e ->%list_elem_of_singleton [= <-]. reflexivity.
  - intros node ->%list_elem_of_singleton. cbn. lia.
Defined.

(** ** An update cycle: teardown, then apply *)

Lemma tagName_createOrUpdateElement tag attrs html w :
  ∃ e, doc_nodes (document (world (createOrUpdateElement tag attrs html w)))
         !! result (createOrUpdateElement tag attrs html w) = Some e ∧
       tagName e = tag.
Proof.
  destruct (run_createOrUpdateElement tag attrs html w) as [-> ->].
  destruct (list_find _ _) as [[i node]|] eqn:Hfind; cbn.
  - apply list_find_Some in Hfind as (_ & Hm & _).
    apply matches_marker_node in Hm as (e & He & Ht).
    eexists. rewrite list_lookup_alter_eq, He. split; [reflexivity |].
    by rewrite refresh_tagName.
  - eexists. rewrite list_lookup_alter_eq, list_lookup_middle by reflexivity.
    split; [reflexivity |]. by rewrite refresh_tagName.
Qed.

Lemma matches_marker_other_tag (d : Document) tag tag' node e :
  doc_nodes d !! node = Some e → tagName e = tag' → tag ≠ tag' →
  matches_marker d tag node = false.
Proof.
  intros He Ht Hne. unfold matches_marker. rewrite He, Ht.
  destruct (String.eqb_spec tag' tag); [congruence | reflexivity].
Qed.

Lemma matches_place_other tag tag' elements attrs w node :
  tag ≠ tag' →
  matches_marker (document (world (place tag' elements attrs w))) tag node =
  matches_marker (document w) tag node.
Proof.
  intros Hne.
  destruct (document_place_helper tag' elements attrs w) as (_ & Hnodes & _).
  destruct (tagName_createOrUpdateElement tag' attrs None w) as (e & He & Ht).
  destruct (decide (node = result (createOrUpdateElement tag' attrs None w)))
    as [-> | Hnode].
  - rewrite (matches_marker_other_tag _ tag tag' _ e); [| by rewrite Hnodes | done..].
    symmetry. destruct (doc_nodes (document w)
      !! result (createOrUpdateElement tag' attrs None w)) as [e0|] eqn:He0.
    + apply (matches_marker_other_tag _ tag tag' _ e0); [done | | done].
      destruct (store_createOrUpdateElement tag' attrs None w _ e0 He0)
        as (e' & He' & Ht').
      congruence.
    + unfold matches_marker. by rewrite He0.
  - unfold matches_marker. rewrite Hnodes.
    by rewrite nodes_createOrUpdateElement.
Qed.

Lemma head_place_mono tag elements attrs w node :
  node ∈ doc_head (document w) →
  node ∈ doc_head (document (world (place tag elements attrs w))).
Proof.
  destruct (document_place_helper tag elements attrs w) as (_ & _ & ->).
  rewrite elem_of_move_to_end. by left.
Qed.

Lemma unmatched_place_other tag tag' elements attrs w :
  tag ≠ tag' →
  unmatched (document w) tag →
  unmatched (document (world (place tag' elements attrs w))) tag.
Proof.
  intros Hne Hun node Hin. rewrite matches_place_other by done.
  destruct (document_place_helper tag' elements attrs w) as (_ & _ & Hhead).
  rewrite Hhead in Hin. apply elem_of_move_to_end in Hin as [Hin | ->].
  - by apply Hun.
  - destruct (result_createOrUpdateElement tag' attrs None w) as [[Hin _] | Heq].
    + by apply Hun.
    + unfold matches_marker. rewrite Heq.
      rewrite (proj2 (lookup_ge_None _ _)); [by intros [] | lia].
Qed.

Section OtherTag.
Context (tag : string) (next prev : gmap string Value).

(** A property of the document that placing an element of another tag
    keeps. *)
Context (Q : Document → Prop).
Context (Q_place : ∀ tag' elements attrs w,
  tag ≠ tag' → Q (document w) →
  Q (document (world (place tag' elements attrs w)))).

Lemma other_places tag' items elements w :
  tag ≠ tag' → Q (document w) →
  Q (document (world (forEach_with items (place tag') elements w))).
Proof.
  intros Hne. revert elements w.
  induction items as [|a items IH]; intros elements w HQ; [done |].
  rewrite world_forEach_with_cons. by apply IH, Q_place.
Qed.

Lemma other_apply_tag tag' elements w :
  tag ≠ tag' → Q (document w) →
  Q (document (world (apply_tag next prev elements tag' w))).
Proof.
  intros Hne HQ. unfold apply_tag. destruct (strict_neq _ _); [| done].
  destruct (get next tag').
  1-3: done.
  - by apply Q_place.
  - by apply other_places.
Qed.

Lemma other_tags tags elements w :
  tag ∉ tags → Q (document w) →
  Q (document (world (forEach_with tags (apply_tag next prev) elements w))).
Proof.
  revert elements w. induction tags as [|t tags IH]; intros elements w Hout HQ;
    [done |].
  apply not_elem_of_cons in Hout as [Hne Hout].
  rewrite world_forEach_with_cons. by apply IH, other_apply_tag.
Qed.

Lemma skipped_tags tags elements w :
  strict_neq (get next tag) (get prev tag) = false → Q (document w) →
  Q (document (world (forEach_with tags (apply_tag next prev) elements w))).
Proof.
  intros Hsame. revert elements w.
  induction tags as [|t tags IH]; intros elements w HQ; [done |].
  rewrite world_forEach_with_cons. apply IH.
  destruct (decide (tag = t)) as [<- | Hne]; [| by apply other_apply_tag].
  unfold apply_tag. by rewrite Hsame.
Qed.

End OtherTag.

Lemma unmarked_unmatched (d : Document) tag : unmarked_head d → unmatched d tag.
Proof.
  intros Hun node Hin (e & He & _ & Hm)%matches_marker_marked.
  rewrite (Hun node e Hin He) in Hm. by destruct Hm.
Qed.

Lemma unmatched_apply prev next w tag :
  strict_neq (get next tag) (get prev tag) = false →
  unmatched (document w) tag →
  unmatched (document (world (apply prev next w))) tag.
Proof.
  intros Hsame Hun. rewrite world_apply.
  apply (skipped_tags tag next prev (λ d, unmatched d tag)); [| done |].
  - intros. by apply unmatched_place_other.
  - pose proof (before_tags_keeps doc_nodes prev next w (λ _ _ _ _, eq_refl)) as Hn.
    pose proof (before_tags_keeps doc_head prev next w (λ _ _ _ _, eq_refl)) as Hh.
    intros node. unfold matches_marker. rewrite Hn, Hh. apply Hun.
Qed.

Lemma sole_after_places tag items elements w node :
  sole_match (document w) tag node →
  (∀ a, a ∈ items → (marker, AUndefined) ∉ a) →
  sole_match (document (world (forEach_with items (place tag) elements w))) tag node.
Proof.
  revert elements w. induction items as [|a items IH]; intros elements w Hsole Hok;
    [done |].
  rewrite world_forEach_with_cons. apply IH.
  - apply place_sole; [done | apply Hok; by left].
  - intros a' Ha'. apply Hok. by right.
Qed.

Lemma matched_after_apply_tag next prev elements tag w :
  unmatched (document w) tag →
  strict_neq (get next tag) (get prev tag) = true →
  places_element (get next tag) →
  ∃ node, sole_match (document (world (apply_tag next prev elements tag w))) tag node.
Proof.
  intros Hun Hneq Hplaces. unfold apply_tag. rewrite Hneq.
  destruct (get next tag) as [| | s | r attrs | r items]; try done.
  - eexists. by apply place_fresh.
  - destruct Hplaces as [Hne Hok]. destruct items as [|a items]; [done |].
    rewrite world_forEach_with_cons. eexists. apply sole_after_places.
    + apply place_fresh; [done | apply Hok; by left].
    + intros a' Ha'. apply Hok. by right.
Qed.

Lemma matched_place_other tag tag' elements attrs w :
  tag ≠ tag' →
  (∃ node, node ∈ doc_head (document w) ∧ matches_marker (document w) tag node) →
  ∃ node, node ∈ doc_head (document (world (place tag' elements attrs w))) ∧
          matches_marker (document (world (place tag' elements attrs w))) tag node.
Proof.
  intros Hne (node & Hin & Hm). exists node.
  split; [by apply head_place_mono | by rewrite matches_place_other].
Qed.

Lemma matched_after_tags next prev tags elements w tag :
  NoDup tags → tag ∈ tags →
  unmatched (document w) tag →
  strict_neq (get next tag) (get prev tag) = true →
  places_element (get next tag) →
  ∃ node,
    node ∈ doc_head (document (world
      (forEach_with tags (apply_tag next prev) elements w))) ∧
    matches_marker (document (world
      (forEach_with tags (apply_tag next prev) elements w))) tag node.
Proof.
  intros Hnd Hin Hun Hneq Hplaces. revert elements w Hun.
  induction tags as [|t tags IH]; intros elements w Hun;
    [by apply elem_of_nil in Hin |].
  apply NoDup_cons in Hnd as [Ht Hnd]. rewrite world_forEach_with_cons.
  destruct (decide (tag = t)) as [<- | Hne].
  - apply (other_tags tag next prev
      (λ d, ∃ node, node ∈ doc_head d ∧ matches_marker d tag node)); [| done |].
    + intros. by apply matched_place_other.
    + destruct (matched_after_apply_tag next prev elements tag w Hun Hneq Hplaces)
        as (node & Hhead & Hm & _).
      by exists node.
  - apply elem_of_cons in Hin as [-> | Hin]; [done |].
    apply IH; [done | done |].
    apply (other_apply_tag tag next prev (λ d, unmatched d tag)); [| done | done].
    intros. by apply unmatched_place_other.
Qed.

Lemma NoDup_VALID_TAG_NAMES : NoDup VALID_TAG_NAMES.
Proof.
  apply (bool_decide_unpack (NoDup VALID_TAG_NAMES)). vm_compute. exact I.
Qed.

Lemma matched_after_apply prev next w tag :
  tag ∈ VALID_TAG_NAMES →
  unmatched (document w) tag →
  strict_neq (get next tag) (get prev tag) = true →
  places_element (get next tag) →
  ∃ node, node ∈ doc_head (document (world (apply prev next w))) ∧
          matches_marker (document (world (apply prev next w))) tag node.
Proof.
  intros Hin Hun Hneq Hplaces. rewrite world_apply.
  apply matched_after_tags; [| done | | done | done].
  - apply NoDup_VALID_TAG_NAMES.
  - pose proof (before_tags_keeps doc_nodes prev next w (λ _ _ _ _, eq_refl)) as Hn.
    pose proof (before_tags_keeps doc_head prev next w (λ _ _ _ _, eq_refl)) as Hh.
    intros node. unfold matches_marker. rewrite Hn, Hh. apply Hun.
Qed.

Lemma ref_apply prev next w : (result (apply prev next w)).1 = next.
Proof. by rewrite result_apply. Qed.

Lemma unsets_marker_not (a : Attributes) :
  ¬ unsets_marker a → (marker, AUndefined) ∉ a.
Proof. intros Hnot Hin. apply Hnot. by exists marker. Qed.

Lemma places_marked_places (v : Value) :
  places_marked_element v → places_element v.
Proof.
  destruct v as [| | s | r a | r items]; try done.
  - apply unsets_marker_not.
  - intros [Hne Hok]. split; [done |]. intros a Ha. by apply unsets_marker_not, Hok.
Qed.

(** X12.  An update cycle is the teardown of the previous apply call
    followed by the apply call for the new Descriptor.  Take a page whose
    head has no marked child, and one of the six tag kinds for which the
    next Descriptor holds the very same value as the first (unchanged under
    [!==]).  Then the cycle leaves the head without any marked element of
    the kind: the teardown gives back the head the page had, and the apply
    call, which only looks at changed kinds, places nothing for the kind.
    This is so although the first apply call had put a marked element of
    the kind into the head, which it does when the value of the kind is new
    to the first call and is an attribute set or a sequence with at least
    one entry, none of which sets the marker attribute (under any spelling
    of its name up to ASCII case) to undefined. *)
Theorem update_cycle_drops_unchanged_kind
    (ref D1 D2 : gmap string Value) (w : World) (tag : string) :
  unmarked_head (document w) → head_in_store (document w) →
  tag ∈ VALID_TAG_NAMES →
  strict_neq (get D2 tag) (get D1 tag) = false →
  let r1 := apply ref D1 w in
  let w2 := world (run_cleanup (result r1).2 (world r1)) in
  let r3 := apply (result r1).1 D2 w2 in
  (strict_neq (get D1 tag) (get ref tag) = true →
   places_marked_element (get D1 tag) →
   ∃ node, node ∈ doc_head (document (world r1)) ∧
           matches_marker (document (world r1)) tag node) ∧
  doc_head (document w2) = doc_head (document w) ∧
  unmatched (document (world r3)) tag.
Proof.
  intros Hun Hstore Htag Hsame r1 w2 r3. subst r1 w2 r3.
  split.
  { intros Hneq Hplaces%places_marked_places.
    apply matched_after_apply; [done | by apply unmarked_unmatched | done..]. }
  destruct (torn_unmarked ref D1 w Hun Hstore) as (_ & Hhead & Hun2 & _).
  split; [exact Hhead |].
  rewrite ref_apply. apply unmatched_apply; [done |].
  by apply unmarked_unmatched.
Qed.

(** A component that passes the same [meta] array on every render and a new
    title: after the second render the head has no [meta] element left. *)
Lemma update_cycle_drops_unchanged_kind_witness :
  let w := mkWorld ∅ (mkDocument EmptyString ∅ ∅ [] []) in
  let meta := VArray 1 [[("name", AString "description")]] in
  let D1 : gmap string Value := {[ "title" := VString "Home"; "meta" := meta ]} in
  let D2 : gmap string Value := {[ "title" := VString "About"; "meta" := meta ]} in
  let r1 := apply ∅ D1 w in
  let w2 := world (run_cleanup (result r1).2 (world r1)) in
  let r3 := apply (result r1).1 D2 w2 in
  (∃ node, node ∈ doc_head (document (world r1)) ∧
           matches_marker (document (world r1)) "meta" node) ∧
  doc_head (document (world r1)) = [0] ∧
  doc_title (document (world r3)) = "About" ∧
  unmatched (document (world r3)) "meta".
Proof.
  intros w meta D1 D2 r1 w2 r3.
  assert (unmarked_head (document w)) as Hun.
  { intros node e Hin. by apply elem_of_nil in Hin. }
  assert (head_in_store (document w)) as Hstore.
  { intros node Hin. by apply elem_of_nil in Hin. }
  assert ("meta" ∈ VALID_TAG_NAMES) as Htag.
  { apply elem_of_cons. right. by left. }
  destruct (update_cycle_drops_unchanged_kind ∅ D1 D2 w "meta"
              Hun Hstore Htag eq_refl) as (Hfirst & _ & Hgone).
  split; [| split; [reflexivity | split; [reflexivity | exact Hgone]]].
  apply Hfirst.
  - reflexivity.
  - split; [discriminate |].
    intros a ->%list_elem_of_singleton (key & Hin & Hkey).
    apply list_elem_of_singleton in Hin. injection Hin as -> _. discriminate Hkey.
Defined.

(** ** Field by field *)

Lemma journals_forEach_with {A B} P (l : list A) (f : B → A → M B) acc :
  (∀ b x, journals P (f b x)) → journals P (forEach_with l f acc).
Proof.
  intros Hf. revert acc. induction l as [|x l IH]; intros acc; simpl.
  - apply journals_ret.
  - apply journals_bind; [apply Hf | intros b; apply IH].
Qed.

Lemma journals_impl {A} (P Q : DomOp → Prop) (m : M A) :
  (∀ op, P op → Q op) → journals P m → journals Q m.
Proof. intros HPQ Hm w. eapply Forall_impl; [apply Hm | exact HPQ]. Qed.

Lemma target_apply_title next prev :
  journals (λ op, target op = OnTitle) (apply_title next prev).
Proof.
  unfold apply_title. destruct (strict_neq _ _); [| apply journals_ret].
  by apply journals_update.
Qed.

Lemma target_apply_htmlAttributes next prev :
  journals (λ op, target op = OnRoot) (apply_htmlAttributes next prev).
Proof.
  unfold apply_htmlAttributes. destruct (strict_neq _ _); [| apply journals_ret].
  apply journals_forEach. intros [k v]. by apply journals_update.
Qed.

Lemma target_apply_bodyAttributes next prev :
  journals (λ op, target op = OnBody) (apply_bodyAttributes next prev).
Proof.
  unfold apply_bodyAttributes. destruct (strict_neq _ _); [| apply journals_ret].
  apply journals_forEach. intros [k v]. by apply journals_update.
Qed.

Lemma target_createOrUpdateElement tag attrs html :
  journals (λ op, target op = OnElements) (createOrUpdateElement tag attrs html).
Proof.
  unfold createOrUpdateElement.
  apply journals_bind; [apply journals_read | intros found].
  apply journals_bind.
  { destruct found; [apply journals_ret |]. intros w. by repeat constructor. }
  intros element.
  apply journals_bind; [by apply journals_update | intros _].
  apply journals_bind.
  { apply journals_forEach. intros [key [| b | s]]; by apply journals_update. }
  intros _. apply journals_bind; [| intros _; apply journals_ret].
  destruct html; [by apply journals_update | apply journals_ret].
Qed.

Lemma target_place tag elements attrs :
  journals (λ op, target op = OnElements) (place tag elements attrs).
Proof.
  unfold place.
  apply journals_bind; [apply target_createOrUpdateElement | intros element].
  apply journals_bind; [by apply journals_update | intros _; apply journals_ret].
Qed.

Lemma target_apply_tag next prev elements tag :
  journals (λ op, target op = OnElements) (apply_tag next prev elements tag).
Proof.
  unfold apply_tag. destruct (strict_neq _ _); [| apply journals_ret].
  destruct (get next tag).
  1-3: apply journals_ret.
  - apply target_place.
  - apply journals_forEach_with. intros. apply target_place.
Qed.

Lemma journal_apply_targets prev next w :
  ∃ j1 j2 j3 j4,
    journal (apply prev next w) = j1 ++ j2 ++ j3 ++ j4 ∧
    j1 = journal (apply_title next prev w) ∧
    Forall (λ op, target op = OnTitle) j1 ∧
    Forall (λ op, target op = OnRoot) j2 ∧
    Forall (λ op, target op = OnBody) j3 ∧
    Forall (λ op, target op = OnElements) j4 ∧
    (strict_neq (get next "htmlAttributes") (get prev "htmlAttributes") = false →
     j2 = []) ∧
    (strict_neq (get next "bodyAttributes") (get prev "bodyAttributes") = false →
     j3 = []) ∧
    j4 = journal (forEach_with VALID_TAG_NAMES (apply_tag next prev) []
           (world (apply_bodyAttributes next prev
              (world (apply_htmlAttributes next prev
                 (world (apply_title next prev w))))))).
Proof.
  rewrite journal_apply. do 4 eexists. split; [reflexivity |].
  split; [reflexivity |].
  split; [apply target_apply_title |].
  split; [apply target_apply_htmlAttributes |].
  split; [apply target_apply_bodyAttributes |].
  split; [apply journals_forEach_with; intros; apply target_apply_tag |].
  split; [| split; [| reflexivity]].
  - intros H. unfold apply_htmlAttributes. by rewrite H.
  - intros H. unfold apply_bodyAttributes. by rewrite H.
Qed.

Lemma run_tag_skipped next prev elements tag w :
  kind_skipped next prev tag →
  apply_tag next prev elements tag w = (elements, w, []).
Proof.
  intros [Hsame | Hvalue]; unfold apply_tag; [by rewrite Hsame |].
  destruct (strict_neq _ _); [| reflexivity].
  destruct (get next tag) as [| | s | r a | r items]; try done.
  by rewrite Hvalue.
Qed.

Lemma run_tags_skipped next prev tags elements w :
  (∀ tag, tag ∈ tags → kind_skipped next prev tag) →
  forEach_with tags (apply_tag next prev) elements w = (elements, w, []).
Proof.
  induction tags as [|tag tags IH]; intros Hskip; [reflexivity |].
  cbn [forEach_with]. unfold mbind, M_bind.
  rewrite run_tag_skipped by (apply Hskip; by left).
  by rewrite IH by (intros t Ht; apply Hskip; by right).
Qed.

(** X13.  The browser effect works field by field.  It leaves the ref
    holding the new Descriptor.  When the title is unchanged under [!==] it
    leaves the document title alone and assigns none; likewise for
    [htmlAttributes] and the root element and for [bodyAttributes] and the
    body.  When every tag kind is unchanged, or holds neither an attribute
    set nor a sequence with an entry, it records nothing and leaves the head
    and every element as they are, whatever it does to the title and to the
    root and body attributes. *)
Theorem apply_works_field_by_field (prev next : gmap string Value) (w : World) :
  let r := apply prev next w in
  let d := document w in
  let d' := document (world r) in
  (result r).1 = next ∧
  (strict_neq (get next "title") (get prev "title") = false →
   doc_title d' = doc_title d ∧
   Forall (λ op, target op ≠ OnTitle) (journal r)) ∧
  (strict_neq (get next "htmlAttributes") (get prev "htmlAttributes") = false →
   doc_documentElement d' = doc_documentElement d ∧
   Forall (λ op, target op ≠ OnRoot) (journal r)) ∧
  (strict_neq (get next "bodyAttributes") (get prev "bodyAttributes") = false →
   doc_body d' = doc_body d ∧
   Forall (λ op, target op ≠ OnBody) (journal r)) ∧
  ((∀ tagName, tagName ∈ VALID_TAG_NAMES → kind_skipped next prev tagName) →
   recorded (result r).2 = [] ∧
   doc_head d' = doc_head d ∧ doc_nodes d' = doc_nodes d ∧
   Forall (λ op, target op ≠ OnElements) (journal r)).
Proof.
  intros r d d'. subst r d d'.
  destruct (journal_apply_targets prev next w)
    as (j1 & j2 & j3 & j4 & -> & Hj1 & H1 & H2 & H3 & H4 & Hh & Hb & Hj4).
  assert (∀ (t t' : Target) (j : list DomOp),
            t ≠ t' → Forall (λ op, target op = t) j →
            Forall (λ op, target op ≠ t') j) as Hother.
  { intros t t' j Hne Hj. eapply Forall_impl; [exact Hj |].
    intros op Hop. congruence. }
  assert (∀ j : list DomOp, j = [] → ∀ t, Forall (λ op, target op ≠ t) j)
    as Hnil by (by intros j ->).
  split; [apply ref_apply |].
  split; [| split; [| split]].
  - intros Hsame. rewrite apply_title_result, Hsame. split; [reflexivity |].
    assert (j1 = []) as -> by (rewrite Hj1; unfold apply_title; by rewrite Hsame).
    rewrite !Forall_app.
    repeat split; first [by apply Hnil | (eapply Hother; [| eassumption]; done)].
  - intros Hsame. rewrite apply_documentElement_result, Hsame.
    split; [reflexivity |]. rewrite (Hh Hsame), !Forall_app.
    repeat split; first [by apply Hnil | (eapply Hother; [| eassumption]; done)].
  - intros Hsame. rewrite apply_body_result, Hsame.
    split; [reflexivity |]. rewrite (Hb Hsame), !Forall_app.
    repeat split; first [by apply Hnil | (eapply Hother; [| eassumption]; done)].
  - intros Hskip. rewrite result_apply, world_apply. cbn [snd recorded].
    assert (j4 = []) as -> by (by rewrite Hj4, run_tags_skipped).
    rewrite run_tags_skipped by done.
    unfold result, world. cbn [fst snd].
    split; [reflexivity |].
    split; [by apply (before_tags_keeps doc_head) |].
    split; [by apply (before_tags_keeps doc_nodes) |].
    rewrite !Forall_app.
    repeat split; first [by apply Hnil | (eapply Hother; [| eassumption]; done)].
Qed.

(** ** A sequence in one pass *)

Lemma move_to_end_twice h node :
  move_to_end (move_to_end h node) node = move_to_end h node.
Proof.
  unfold move_to_end at 1.
  rewrite (filter_move_to_end (λ n, n ≠ node)) by tauto.
  reflexivity.
Qed.

Lemma document_places_sole tag items elements w node :
  sole_match (document w) tag node →
  (∀ a, a ∈ items → (marker, AUndefined) ∉ a) →
  let d' := document (world (forEach_with items (place tag) elements w)) in
  doc_nodes d' =
    alter (λ e, fold_left (λ e a, refresh a None e) items e) node
      (doc_nodes (document w)) ∧
  doc_head d' =
    match items with
    | [] => doc_head (document w)
    | _ => move_to_end (doc_head (document w)) node
    end.
Proof.
  revert elements w. induction items as [|a items IH]; intros elements w Hsole Hok d'.
  - subst d'. cbn. split; [| reflexivity]. symmetry. by apply list_alter_id.
  - subst d'. rewrite world_forEach_with_cons.
    destruct (place_sole tag elements a w node Hsole) as [_ Hsole'].
    { apply Hok. by left. }
    destruct (IH (result (place tag elements a w)) (world (place tag elements a w))
                Hsole') as [Hnodes Hhead].
    { intros a' Ha'. apply Hok. by right. }
    destruct (document_place tag elements a w) as [_ Hdoc].
    rewrite (find_sole _ _ _ Hsole) in Hdoc. cbn [default] in Hdoc.
    rewrite Hnodes, Hhead, Hdoc. cbn [doc_nodes doc_head with_head alter_node].
    split; [by rewrite list_alter_twice |].
    destruct items; [reflexivity | apply move_to_end_twice].
Qed.

(** X14.  Take a sequence of one tag kind with at least one entry, in which
    no entry sets the marker attribute to undefined and, as for the tag, no
    name has an upper-case ASCII letter.  Applied to a head without a marked
    element of that tag, it ends on one element whatever its length: the
    store gains exactly one element, the head gains exactly that child, at
    the end, and the element carries what the entries left on it one after
    the other, so that a later entry overrides an earlier one key by key and
    keys only an earlier entry names stay. *)
Theorem sequence_shares_one_element
    (tag : string) (items : list Attributes) (elements : list nat) (w : World) :
  unmatched (document w) tag →
  lowercase tag = tag →
  items ≠ [] →
  (∀ a, a ∈ items → Forall (λ key, lowercase key = key) a.*1) →
  (∀ a, a ∈ items → ¬ unsets_marker a) →
  let r := forEach_with items (place tag) elements w in
  let node := length (doc_nodes (document w)) in
  doc_nodes (document (world r)) =
    doc_nodes (document w) ++
    [fold_left (λ e a, refresh a None e) items (mkElement tag ∅ EmptyString)] ∧
  doc_head (document (world r)) = move_to_end (doc_head (document w)) node ∧
  result r = elements ++ replicate (length items) node.
Proof.
  intros Hun _ Hne _ Hmarked r node. subst r node.
  assert (∀ a, a ∈ items → (marker, AUndefined) ∉ a) as Hok
    by (intros a Ha; by apply unsets_marker_not, Hmarked).
  clear Hmarked.
  split; [| split; [| by apply places_fresh]].
  all: destruct items as [|a items]; [done |]; clear Hne.
  all: rewrite world_forEach_with_cons.
  all: destruct (place_fresh tag elements a w Hun) as [_ Hsole];
         [apply Hok; by left |].
  all: destruct (document_places_sole tag items (result (place tag elements a w))
                   (world (place tag elements a w)) _ Hsole) as [Hnodes Hhead];
         [intros a' Ha'; apply Hok; by right |].
  all: destruct (document_place tag elements a w) as [_ Hdoc].
  all: rewrite (proj2 (find_none_iff _ _) Hun) in Hdoc.
  all: cbn [fmap option_fmap option_map default] in Hdoc.
  - rewrite Hnodes, Hdoc. cbn [doc_nodes with_head alter_node add_node].
    rewrite list_alter_twice.
    rewrite <- (Nat.add_0_r (length (doc_nodes (document w)))) at 1.
    by rewrite alter_app_r.
  - rewrite Hhead, Hdoc. cbn [doc_head with_head alter_node add_node].
    destruct items; [reflexivity | apply move_to_end_twice].
Qed.

(** Two [meta] entries on a fresh page: one element, with the [name] of the
    first entry, the [property] of the second and the [content] of the
    second. *)
Lemma sequence_shares_one_element_witness :
  let w := mkWorld ∅ (mkDocument EmptyString ∅ ∅ [] []) in
  let items : list Attributes :=
    [[("name", AString "description"); ("content", AString "a")];
     [("property", AString "og:title"); ("content", AString "b")]] in
  let r := forEach_with items (place "meta") [] w in
  doc_head (document (world r)) = [0] ∧
  attributes <$> doc_nodes (document (world r)) !! 0 =
    Some {[ marker := EmptyString; "name" := "description";
            "property" := "og:title"; "content" := "b" ]}.
Proof.
  intros w items r.
  destruct (sequence_shares_one_element "meta" items [] w)
    as (Hnodes & Hhead & _).
  - intros node Hin. by apply elem_of_nil in Hin.
  - reflexivity.
  - discriminate.
  - intros a Ha. apply list_elem_of_In in Ha. simpl in Ha.
    destruct Ha as [<- | [<- | []]]; by repeat constructor.
  - intros a Ha (key & Hm & Hkey). apply list_elem_of_In in Ha.
    apply list_elem_of_In in Hm.
    simpl in Ha. destruct Ha as [<- | [<- | []]]; simpl in Hm;
      destruct Hm as [Hm | [Hm | []]]; discriminate Hm.
  - split; [exact Hhead |]. fold r in Hnodes. rewrite Hnodes. vm_compute.
    reflexivity.
Defined.

(** ** The two modes apart *)

Lemma data_update f op : keeps serverHeadmasterData (update_document f op).
Proof. by intros w. Qed.

Lemma data_apply prev next w :
  serverHeadmasterData (world (apply prev next w)) = serverHeadmasterData w.
Proof.
  rewrite world_apply.
  change (serverHeadmasterData ?w) with (sur_data (surroundings w)) at 1.
  rewrite apply_tags_keeps. cbn [surroundings sur_data].
  assert (keeps serverHeadmasterData (apply_title next prev)) as Ht.
  { unfold apply_title. destruct (strict_neq _ _); [apply data_update | apply keeps_ret]. }
  assert (keeps serverHeadmasterData (apply_htmlAttributes next prev)) as Hh.
  { unfold apply_htmlAttributes. destruct (strict_neq _ _); [| apply keeps_ret].
    apply keeps_forEach. intros [k v]. apply data_update. }
  assert (keeps serverHeadmasterData (apply_bodyAttributes next prev)) as Hb.
  { unfold apply_bodyAttributes. destruct (strict_neq _ _); [| apply keeps_ret].
    apply keeps_forEach. intros [k v]. apply data_update. }
  by rewrite Hb, Hh, Ht.
Qed.

Lemma result_renderServerHeadmaster (w : World) :
  result (renderServerHeadmaster true w) =
  Returned (spec_render (serverHeadmasterData w)).
Proof. by rewrite run_renderServerHeadmaster. Qed.

(** X15.  The two modes do not meet.  In a browser neither the effect nor
    its teardown writes the aggregate, so whatever the hook does there, what
    the serializer would return is the same before and after.  On the server
    the effect performs no mutation of the document and hands back no
    teardown, so nothing is ever detached for it. *)
Theorem modes_do_not_meet (prev next : gmap string Value) (w : World) :
  let r := apply prev next w in
  let torn := run_cleanup (result r).2 (world r) in
  let s := useHeadmaster_effect true prev next w in
  serverHeadmasterData (world r) = serverHeadmasterData w ∧
  serverHeadmasterData (world torn) = serverHeadmasterData w ∧
  result (renderServerHeadmaster true (world torn)) =
    result (renderServerHeadmaster true w) ∧
  document (world s) = document w ∧
  journal s = [] ∧
  run_cleanup (result s).2 (world s) = ((), world s, []).
Proof.
  intros r torn s. subst r torn s.
  assert (serverHeadmasterData (world (run_cleanup (result (apply prev next w)).2
            (world (apply prev next w)))) = serverHeadmasterData w) as Htorn.
  { rewrite (apply_records prev next w) at 1. cbn [run_cleanup].
    pose proof (keeps_cleanup (appended (journal (apply prev next w)))
                  (world (apply prev next w))) as Hk.
    apply (f_equal sur_data) in Hk. cbn [surroundings sur_data] in Hk.
    rewrite Hk. apply data_apply. }
  split; [apply data_apply |]. split; [exact Htorn |].
  split; [| by repeat split].
  by rewrite !result_renderServerHeadmaster, Htorn.
Qed.
